(** * A shallow embedding of the HTTP server of [app/main.go]

    The development follows the Go program function by function.  A Go
    [string] is a sequence of bytes and is modelled by Rocq's [string]
    (a list of 8-bit characters); the header map [map[string]string] is a
    [gmap string string]; the connection is the sequence of segments the
    peer delivers; the file system is a finite map from paths to contents.
    The parts of Go's standard library the program calls ([strings],
    [strconv], [fmt], [bufio], [io], [net], [path/filepath], [os]) are
    modelled from their documented behaviour, each in a module named after
    its package; [compress/gzip] is an interface.  The loops of the Go
    code are recursive functions on a fuel that is computed from their
    input and shown to be enough. *)

From Stdlib Require Import ZArith Ascii DecimalString Lia.
From stdpp Require Import base option list gmap strings.

Local Open Scope nat_scope.

(** ** Bytes and strings *)

Definition LF : ascii := "010"%char.
Definition CR : ascii := "013"%char.
Definition CRLF : string := String CR (String LF "").

Definition byte_val (a : ascii) : nat := nat_of_ascii a.

(** [s[:n]] and [s[n:]] for [n] clamped to [len(s)]. *)
Fixpoint take_str (n : nat) (s : string) : string :=
  match n, s with
  | S n', String a s' => String a (take_str n' s')
  | _, _ => ""
  end.

Fixpoint drop_str (n : nat) (s : string) : string :=
  match n, s with
  | S n', String _ s' => drop_str n' s'
  | _, _ => s
  end.

Arguments take_str : simpl nomatch.
Arguments drop_str : simpl nomatch.

Abbreviation len := String.length.

Module strings.

(** [strings.IndexByte]: position of the first occurrence of [c]. *)
Fixpoint IndexByte (s : string) (c : ascii) : option nat :=
  match s with
  | "" => None
  | String a s' => if Ascii.eqb a c then Some 0 else S <$> IndexByte s' c
  end.

Definition HasPrefix (s prefix : string) : bool := String.prefix prefix s.

Definition TrimPrefix (s prefix : string) : string :=
  if HasPrefix s prefix then drop_str (len prefix) s else s.

(** [strings.Contains]: [substr] occurs somewhere in [s]. *)
Fixpoint Contains (s substr : string) : bool :=
  HasPrefix s substr ||
  match s with
  | "" => false
  | String _ s' => Contains s' substr
  end.

(** [strings.Index]: byte offset of the first occurrence of [substr]. *)
Fixpoint Index (s substr : string) : option nat :=
  if HasPrefix s substr then Some 0 else
  match s with
  | "" => None
  | String _ s' => S <$> Index s' substr
  end.

Definition in_cutset (cutset : string) (a : ascii) : bool :=
  bool_decide (is_Some (IndexByte cutset a)).

(** [strings.TrimRight] for a cutset of ASCII bytes: the trailing bytes
    that belong to the cutset are removed. *)
Fixpoint TrimRight (s cutset : string) : string :=
  match s with
  | "" => ""
  | String a s' =>
    match TrimRight s' cutset with
    | "" => if in_cutset cutset a then "" else String a ""
    | t => String a t
    end
  end.

(** [unicode.IsSpace] on the UTF-8 encoding.  The one-byte white space
    is tab, line feed, vertical tab, form feed, carriage return and
    space; U+0085 and U+00A0 take two bytes; U+1680, U+2000..U+200A,
    U+2028, U+2029, U+202F, U+205F and U+3000 take three.  A lead byte
    never occurs inside another rune, so matching the encodings on the
    bytes agrees with decoding rune by rune. *)
Definition space1 (a : ascii) : bool :=
  let n := byte_val a in (9 <=? n) && (n <=? 13) || (n =? 32).

Definition space2 (a b : ascii) : bool :=
  (byte_val a =? 194) && ((byte_val b =? 133) || (byte_val b =? 160)).

Definition space3 (a b c : ascii) : bool :=
  let '(x, y, z) := (byte_val a, byte_val b, byte_val c) in
  (x =? 225) && (y =? 154) && (z =? 128)
  || (x =? 226) && (y =? 128)
     && ((128 <=? z) && (z <=? 138) || (z =? 168) || (z =? 169) || (z =? 175))
  || (x =? 226) && (y =? 129) && (z =? 159)
  || (x =? 227) && (y =? 128) && (z =? 128).

(** [strings.TrimLeftFunc(s, unicode.IsSpace)] *)
Fixpoint TrimLeftSpace (s : string) : string :=
  match s with
  | "" => ""
  | String a s1 =>
    if space1 a then TrimLeftSpace s1 else
    match s1 with
    | "" => s
    | String b s2 =>
      if space2 a b then TrimLeftSpace s2 else
      match s2 with
      | "" => s
      | String c s3 => if space3 a b c then TrimLeftSpace s3 else s
      end
    end
  end.

(** [strings.TrimRightFunc(s, unicode.IsSpace)]: the longest suffix made
    of white-space runes is removed. *)
Fixpoint TrimRightSpace (s : string) : string :=
  match s with
  | "" => ""
  | String a s' =>
    if bool_decide (TrimLeftSpace s = "") then "" else String a (TrimRightSpace s')
  end.

Definition TrimSpace (s : string) : string := TrimRightSpace (TrimLeftSpace s).

(** [strings.Fields]: the maximal runs of bytes between white space.
    [cur] is the field being collected. *)
Definition flush (cur : string) : list string :=
  match cur with "" => [] | _ => [cur] end.

Fixpoint fields_go (cur s : string) : list string :=
  match s with
  | "" => flush cur
  | String a s1 =>
    if space1 a then flush cur ++ fields_go "" s1 else
    let keep := fields_go (cur +:+ String a "") s1 in
    match s1 with
    | "" => keep
    | String b s2 =>
      if space2 a b then flush cur ++ fields_go "" s2 else
      match s2 with
      | "" => keep
      | String c s3 =>
        if space3 a b c then flush cur ++ fields_go "" s3 else keep
      end
    end
  end.

Definition Fields (s : string) : list string := fields_go "" s.

(** [strings.ToLower].  Upper-case ASCII letters are mapped to lower
    case.  For a string with a byte of 0x80 or more Go also lowers the
    letters outside ASCII; no such letter lowers to one of c, l, o, s, e,
    so the one use the program makes of [ToLower], a comparison with
    ["close"], is decided by the ASCII mapping. *)
Definition lower (a : ascii) : ascii :=
  let n := byte_val a in
  if (65 <=? n) && (n <=? 90) then ascii_of_nat (n + 32) else a.

Fixpoint ToLower (s : string) : string :=
  match s with
  | "" => ""
  | String a s' => String (lower a) (ToLower s')
  end.

End strings.

(** ** [strconv] and [fmt] *)

Module strconv.

(** The platform [int] has 64 bits. *)
Definition minInt : Z := - 2 ^ 63.
Definition maxInt : Z := 2 ^ 63 - 1.

Definition digit_val (a : ascii) : option Z :=
  let n := byte_val a in
  if (48 <=? n) && (n <=? 57) then Some (Z.of_nat (n - 48)) else None.

Fixpoint digits (acc : Z) (s : string) : option Z :=
  match s with
  | "" => Some acc
  | String a s' =>
    match digit_val a with
    | Some d => digits (10 * acc + d) s'
    | None => None
    end
  end.

Definition parse_unsigned (s : string) : option Z :=
  match s with
  | "" => None
  | _ => digits 0 s
  end.

(** [strconv.Atoi]: an optional sign, then one or more decimal digits;
    a value outside the range of [int] is an error, like any other
    syntax. *)
Definition Atoi (s : string) : option Z :=
  let parsed :=
    match s with
    | String "-" t => Z.opp <$> parse_unsigned t
    | String "+" t => parse_unsigned t
    | _ => parse_unsigned s
    end in
  n ← parsed;
  if ((minInt <=? n) && (n <=? maxInt))%Z then Some n else None.

End strconv.

Module fmt.

(** The verb [%d] applied to a length. *)
Definition d (n : nat) : string := NilZero.string_of_uint (Nat.to_uint n).

End fmt.

(** ** [path/filepath] on a Unix system *)

Module filepath.

Definition is_sep (a : ascii) : bool := Ascii.eqb a "/".

(** [strings.Split(path, "/")] *)
Fixpoint split_go (cur s : string) : list string :=
  match s with
  | "" => [cur]
  | String a s' =>
    if is_sep a then cur :: split_go "" s' else split_go (cur +:+ String a "") s'
  end.

Definition split (path : string) : list string := split_go "" path.

(** One element of the path against the elements kept so far (the last
    kept element first).  An empty element and [.] are dropped; [..]
    removes the element before it when there is one that is not itself
    [..], is dropped at the root, and is kept otherwise. *)
Definition clean_step (rooted : bool) (out : list string) (elem : string) : list string :=
  if bool_decide (elem = "") || bool_decide (elem = ".") then out
  else if bool_decide (elem = "..") then
    match out with
    | top :: out' => if bool_decide (top = "..") then elem :: out else out'
    | [] => if rooted then [] else [elem]
    end
  else elem :: out.

Fixpoint join_sep (elems : list string) : string :=
  match elems with
  | [] => ""
  | [e] => e
  | e :: rest => e +:+ "/" +:+ join_sep rest
  end.

(** [filepath.Clean] *)
Definition Clean (path : string) : string :=
  if bool_decide (path = "") then "." else
  let rooted := strings.HasPrefix path "/" in
  let out := rev (foldl (clean_step rooted) [] (split path)) in
  match rooted, out with
  | true, _ => "/" +:+ join_sep out
  | false, [] => "."
  | false, _ => join_sep out
  end.

(** [filepath.Join]: the empty leading elements are ignored, the others
    are joined with the separator and the result is cleaned. *)
Fixpoint Join (elem : list string) : string :=
  match elem with
  | [] => ""
  | e :: rest => if bool_decide (e = "") then Join rest else Clean (join_sep elem)
  end.

End filepath.

(** ** [os]: the file store *)

Inductive fs_op := OpOpen | OpStat | OpCreate | OpWrite.

(** What the system holds at a path where there is no regular file (a
    directory, a device, a file of a virtual file system such as procfs):
    the size that [Stat] reports for it and the bytes that a copy of it
    yields, which are none for a directory, whose reads fail. *)
Record special := {
  reported : nat;
  yields : string;
}.

(** The regular files by path; what else the system holds by path, for
    the reads (a regular file, where there is one, is what a read finds);
    and the operations that the system refuses on a path (permissions,
    missing parent directory, full disk, a file to be created where a
    directory is).  The writes are modelled for regular files only: a
    device that takes what is written and keeps nothing is outside the
    model. *)
Record FS := {
  files : gmap string string;
  others : gmap string special;
  refused : fs_op → string → bool;
}.

(** An open file: the size the system reports for it and the bytes that
    reading it to the end yields.  For a regular file the size is the
    number of these bytes. *)
Record File := {
  file_size : nat;
  file_data : string;
}.

Module os.

Definition put (fs : FS) (name data : string) : FS :=
  {| files := <[name := data]> (files fs); others := others fs;
     refused := refused fs |}.

(** [os.Open] for reading: it succeeds on whatever the system holds at
    the path, a directory included, and fails when there is nothing. *)
Definition Open (fs : FS) (name : string) : option File :=
  if refused fs OpOpen name then None
  else
    match files fs !! name with
    | Some data => Some {| file_size := len data; file_data := data |}
    | None =>
      match others fs !! name with
      | Some o => Some {| file_size := reported o; file_data := yields o |}
      | None => None
      end
    end.

(** [File.Stat], of which the program uses [Size()]. *)
Definition Stat (fs : FS) (name : string) (file : File) : option nat :=
  if refused fs OpStat name then None else Some (file_size file).

(** [os.Create]: the file exists and is empty afterwards. *)
Definition Create (fs : FS) (name : string) : option FS :=
  if refused fs OpCreate name then None else Some (put fs name "").

(** [File.Write] on a file that was just created. *)
Definition Write (fs : FS) (name data : string) : option FS :=
  if refused fs OpWrite name then None else Some (put fs name data).

End os.

(** ** [net]: the connection *)

(** What the peer sends, in the order in which it reaches the server: a
    segment, the run of bytes that a read finds available (bytes that
    arrive together before a read are one segment), or a pause that
    outlasts the deadline of the read waiting for it.  After the last
    event the stream is closed. *)
Inductive event :=
| Data (seg : string)
| Deadline.

Abbreviation Conn := (list event).

Module net.

(** [conn.Read(p)] with [len(p) = cap]: the bytes of the next segment, at
    most [cap] of them, the rest of the segment staying in the socket; or
    an error at a deadline or at the end of the stream.  The result is the
    bytes read, if any, and the connection afterwards. *)
Fixpoint Read (cap : nat) (c : Conn) : option string * Conn :=
  match c with
  | [] => (None, [])
  | Deadline :: rest => (None, rest)
  | Data seg :: rest =>
    if bool_decide (seg = "") then Read cap rest
    else if len seg <=? cap then (Some seg, rest)
    else (Some (take_str cap seg), Data (drop_str cap seg) :: rest)
  end.

(** Why a read that fails on [c] fails: the deadline passes while it
    waits ([true]), or the stream has ended ([false]). *)
Fixpoint timed_out (c : Conn) : bool :=
  match c with
  | [] => false
  | Deadline :: _ => true
  | Data seg :: rest => if bool_decide (seg = "") then timed_out rest else false
  end.

(** One for each event and one for each byte still to come. *)
Fixpoint size (c : Conn) : nat :=
  match c with
  | [] => 0
  | Data seg :: rest => S (len seg + size rest)
  | Deadline :: rest => S (size rest)
  end.

(** The bytes that reads can obtain before one of them fails. *)
Fixpoint pending (c : Conn) : string :=
  match c with
  | [] => ""
  | Data seg :: rest => seg +:+ pending rest
  | Deadline :: _ => ""
  end.

End net.

(** ** Errors *)

Inductive error :=
| io_error            (* end of stream *)
| deadline_exceeded   (* the deadline of the connection has passed *)
| bad_request_line    (* fmt.Errorf("bad request line") *)
| not_http.           (* fmt.Errorf("not http") *)

Inductive result (A : Type) :=
| Ok (a : A)
| Err (e : error).

Arguments Ok {A} a.
Arguments Err {A} e.

(** The error of a read that fails on [c]. *)
Definition read_error (c : Conn) : error :=
  if net.timed_out c then deadline_exceeded else io_error.

(** [conn.Write(p)] after a read of the same pass has failed with [e]:
    what reaches the connection.  The deadline that [SetDeadline] sets at
    the beginning of the pass is that of the writes too, so once it has
    passed the write fails and nothing is sent. *)
Definition Write_after (e : error) (p : string) : string :=
  match e with
  | deadline_exceeded => ""
  | _ => p
  end.

(** A call that returns, or that panics. *)
Inductive outcome (A : Type) :=
| Done (a : A)
| Panic.

Arguments Done {A} a.
Arguments Panic {A}.

(** ** [runtime]: allocation *)

Module runtime.

(** The largest allocation the runtime accepts, [maxAlloc]: 2^48 bytes
    where addresses have 48 bits (linux/amd64). *)
Definition maxAlloc : Z := 2 ^ 48.

(** [make([]byte, n)]: the length of the slice, or the panic
    "makeslice: len out of range" when [n] is negative or more than the
    runtime accepts.  The memory for a length that the runtime accepts is
    taken to be there. *)
Definition makeslice (n : Z) : outcome nat :=
  if (n <? 0)%Z || (maxAlloc <? n)%Z then Panic else Done (Z.to_nat n).

End runtime.

(** ** [bufio] and [io] *)

(** A [bufio.Reader]: the connection it reads from and the bytes it has
    read from it and not yet handed out. *)
Record Reader := {
  rd : Conn;
  buffered : string;
}.

Module bufio.

Definition defaultBufSize : nat := 4096.

Definition NewReader (c : Conn) : Reader := {| rd := c; buffered := "" |}.

(** [Reader.ReadString(delim)].  [acc] holds the full buffers set
    aside so far.  Each round hands out the line when the buffer has the
    delimiter, sets a full buffer aside, or fills the buffer with one
    read of the connection. *)
Fixpoint ReadString_go (fuel : nat) (acc : string) (b : Reader) (delim : ascii)
  : result (string * Reader) :=
  match fuel with
  | 0 => Err io_error
  | S fuel =>
    match strings.IndexByte (buffered b) delim with
    | Some i =>
      Ok (acc +:+ take_str (S i) (buffered b),
          {| rd := rd b; buffered := drop_str (S i) (buffered b) |})
    | None =>
      if defaultBufSize <=? len (buffered b) then
        ReadString_go fuel (acc +:+ buffered b) {| rd := rd b; buffered := "" |} delim
      else
        match net.Read (defaultBufSize - len (buffered b)) (rd b) with
        | (None, _) => Err (read_error (rd b))
        | (Some chunk, c) =>
          ReadString_go fuel acc {| rd := c; buffered := buffered b +:+ chunk |} delim
        end
    end
  end.

Definition ReadString (b : Reader) (delim : ascii) : result (string * Reader) :=
  ReadString_go (2 * net.size (rd b) + 2) "" b delim.

(** [Reader.Read(p)] with [len(p) = n > 0]: from the buffer when it
    holds bytes; otherwise one read of the connection, straight into [p]
    when [p] is at least as large as the buffer and through the buffer
    when it is smaller. *)
Definition Read (b : Reader) (n : nat) : option string * Reader :=
  if negb (bool_decide (buffered b = "")) then
    (Some (take_str n (buffered b)),
     {| rd := rd b; buffered := drop_str n (buffered b) |})
  else if defaultBufSize <=? n then
    let '(got, c) := net.Read n (rd b) in
    (got, {| rd := c; buffered := "" |})
  else
    match net.Read defaultBufSize (rd b) with
    | (None, c) => (None, {| rd := c; buffered := "" |})
    | (Some chunk, c) =>
      (Some (take_str n chunk), {| rd := c; buffered := drop_str n chunk |})
    end.

End bufio.

Module io.

(** [io.ReadFull(reader, buf)] with [len(buf) = need] more bytes wanted:
    reads until the buffer is full or a read fails, and then reports the
    error of that read. *)
Fixpoint ReadFull_go (fuel : nat) (b : Reader) (need : nat) (got : string)
  : result string * Reader :=
  match need, fuel with
  | 0, _ => (Ok got, b)
  | _, 0 => (Err io_error, b)
  | _, S fuel =>
    match bufio.Read b need with
    | (None, b') => (Err (read_error (rd b)), b')
    | (Some p, b') => ReadFull_go fuel b' (need - len p) (got +:+ p)
    end
  end.

Definition ReadFull (b : Reader) (n : nat) : result string * Reader :=
  ReadFull_go (len (buffered b) + net.size (rd b) + 1) b n "".

(** [io.Copy(conn, file)]: the bytes that reach the connection, those
    that reading the file to its end yields. *)
Definition Copy (file : File) : string := file_data file.

End io.

(** ** [compress/gzip] *)

(** The compressor is not part of the program: it is an interface with
    the two calls that can report an error, [Write] (on a new writer over
    an empty buffer) and [Close], which yields the bytes of the buffer,
    and with the decompressor a client applies. *)
Class Gzip := {
  gzip_Writer : Type;
  gzip_Write : string → option gzip_Writer;
  gzip_Close : gzip_Writer → option string;
  gzip_Decompress : string → option string;
}.

(** ** The program: [app/main.go] *)

Record Server := {
  directory : string;
}.

(** [main]: the argument after the first [--directory] that has one. *)
Fixpoint main_directory (args : list string) : string :=
  match args with
  | [] => ""
  | arg :: rest =>
    match rest with
    | next :: _ => if bool_decide (arg = "--directory") then next else main_directory rest
    | [] => ""
    end
  end.

(** [headers[name]]: the empty string when the key is absent. *)
Definition header (headers : gmap string string) (name : string) : string :=
  default "" (headers !! name).

(** *** Responses *)

Definition resp_root : string :=
  "HTTP/1.1 200 OK" +:+ CRLF +:+ "Content-Length: " +:+ fmt.d (len ("OK" +:+ String LF "")) +:+ CRLF
  +:+ "Content-Type: text/plain" +:+ CRLF +:+ CRLF +:+ "OK" +:+ String LF "".

Definition resp_text (body : string) : string :=
  "HTTP/1.1 200 OK" +:+ CRLF +:+ "Content-Type: text/plain" +:+ CRLF
  +:+ "Content-Length: " +:+ fmt.d (len body) +:+ CRLF +:+ CRLF +:+ body.

Definition resp_gzip_header (n : nat) : string :=
  "HTTP/1.1 200 OK" +:+ CRLF +:+ "Content-Type: text/plain" +:+ CRLF
  +:+ "Content-Encoding: gzip" +:+ CRLF
  +:+ "Content-Length: " +:+ fmt.d n +:+ CRLF +:+ CRLF.

Definition resp_file_header (size : nat) : string :=
  "HTTP/1.1 200 OK" +:+ CRLF +:+ "Content-Type: application/octet-stream" +:+ CRLF
  +:+ "Content-Length: " +:+ fmt.d size +:+ CRLF +:+ CRLF.

Definition resp_201 : string := "HTTP/1.1 201 Created" +:+ CRLF +:+ CRLF.
Definition resp_400 : string := "HTTP/1.1 400 Bad Request" +:+ CRLF +:+ CRLF.
Definition resp_404 : string := "HTTP/1.1 404 Not Found" +:+ CRLF +:+ CRLF.
Definition resp_404_default : string :=
  "HTTP/1.1 404 Not Found" +:+ CRLF +:+ "Content-Length: 0" +:+ CRLF +:+ CRLF.
Definition resp_405 : string := "HTTP/1.1 405 Method Not Allowed" +:+ CRLF +:+ CRLF.
Definition resp_500 : string := "HTTP/1.1 500 Internal Server Error" +:+ CRLF +:+ CRLF.

(** *** [readRequestAndGetMethodPathAndHeaders] *)

(** One pass of the loop over a header line that is not the blank line:
    the name and the value when the first colon is not at position 0,
    and then [headers[name] = value]. *)
Definition header_field (line : string) : option (string * string) :=
  let line := strings.TrimRight line CRLF in
  match strings.Index line ":" with
  | Some colonIndex =>
    if 0 <? colonIndex then
      let name := strings.TrimSpace (take_str colonIndex line) in
      let value := strings.TrimSpace (drop_str (colonIndex + 1) line) in
      Some (name, value)
    else None
  | None => None
  end.

Definition parse_header_line (line : string) (headers : gmap string string)
  : gmap string string :=
  match header_field line with
  | Some (name, value) => <[name := value]> headers
  | None => headers
  end.

(** The loop "read headers until blank line". *)
Fixpoint read_headers (fuel : nat) (r : Reader) (headers : gmap string string)
  : result (gmap string string * Reader) :=
  match fuel with
  | 0 => Err io_error
  | S fuel =>
    match bufio.ReadString r LF with
    | Err e => Err e
    | Ok (line, r) =>
      if bool_decide (line = CRLF) then Ok (headers, r)
      else read_headers fuel r (parse_header_line line headers)
    end
  end.

Definition readRequestAndGetMethodPathAndHeaders (conn : Conn)
  : result (string * string * gmap string string * Reader) :=
  let r := bufio.NewReader conn in
  match bufio.ReadString r LF with
  | Err e => Err e
  | Ok (reqLine, r) =>
    let reqLine := strings.TrimRight reqLine CRLF in
    match strings.Fields reqLine with
    | [method; path; version] =>
      if negb (strings.HasPrefix version "HTTP/") then Err not_http
      else
        match read_headers (len (buffered r) + net.size (rd r) + 1) r ∅ with
        | Err e => Err e
        | Ok (headers, r) => Ok (method, path, headers, r)
        end
    | _ => Err bad_request_line
    end
  end.

(** *** [handleFileGetRequest] *)

Definition handleFileGetRequest (s : Server) (fs : FS) (filename : string) : string :=
  if bool_decide (directory s = "") then resp_404
  else
    let filePath := filepath.Join [directory s; filename] in
    match os.Open fs filePath with
    | None => resp_404
    | Some file =>
      match os.Stat fs filePath file with
      | None => resp_404
      | Some size => resp_file_header size +:+ io.Copy file
      end
    end.

(** *** [handleFilePostRequest] *)

(** When the call returns, the result is the file store, the bytes that
    reached the connection and the reader after the call.  The call panics
    when the buffer for the body cannot be made; nothing has been written
    or read then, and the panic, which nothing recovers, ends the
    process. *)
Definition handleFilePostRequest (s : Server) (fs : FS) (filename : string)
    (headers : gmap string string) (reader : Reader)
  : outcome (FS * string * Reader) :=
  if bool_decide (directory s = "") then Done (fs, resp_404, reader)
  else
    match headers !! "Content-Length" with
    | None => Done (fs, resp_400, reader)
    | Some contentLengthStr =>
      match strconv.Atoi contentLengthStr with
      | None => Done (fs, resp_400, reader)
      | Some contentLength =>
        if (contentLength <? 0)%Z then Done (fs, resp_400, reader)
        else
          match runtime.makeslice contentLength with
          | Panic => Panic
          | Done size =>
            match io.ReadFull reader size with
            | (Err e, reader) => Done (fs, Write_after e resp_400, reader)
            | (Ok body, reader) =>
              let filePath := filepath.Join [directory s; filename] in
              match os.Create fs filePath with
              | None => Done (fs, resp_500, reader)
              | Some fs =>
                match os.Write fs filePath body with
                | None => Done (fs, resp_500, reader)
                | Some fs => Done (fs, resp_201, reader)
                end
              end
            end
          end
      end
    end.

(** *** [handleConnection] *)

Section connection.
Context `{Gzip}.

(** What one pass of the loop does after the request is parsed: the file
    store, the bytes that reached the connection, the reader afterwards,
    whether the pass left the function by a [return] of its own, and
    whether it left it by a panic.  After a panic there is no connection
    to read from any more. *)
Record served := {
  store : FS;
  written : string;
  reader_after : Reader;
  returned : bool;
  panicked : bool;
}.

Definition echo (str : string) (headers : gmap string string) : string * bool :=
  let acceptEncoding := header headers "Accept-Encoding" in
  let supportsGzip := strings.Contains acceptEncoding "gzip" in
  if supportsGzip then
    match gzip_Write str with
    | None => (resp_500, true)
    | Some gzipWriter =>
      match gzip_Close gzipWriter with
      | None => (resp_500, true)
      | Some compressedData =>
        (resp_gzip_header (len compressedData) +:+ compressedData, false)
      end
    end
  else (resp_text str, false).

Definition dispatch (s : Server) (fs : FS) (method path : string)
    (headers : gmap string string) (reader : Reader) : served :=
  if bool_decide (path = "/") then
    {| store := fs; written := resp_root; reader_after := reader; returned := false;
       panicked := false |}
  else if strings.HasPrefix path "/echo/" then
    let str := strings.TrimPrefix path "/echo/" in
    let '(resp, ret) := echo str headers in
    {| store := fs; written := resp; reader_after := reader; returned := ret;
       panicked := false |}
  else if bool_decide (path = "/user-agent") then
    let userAgent := header headers "User-Agent" in
    {| store := fs; written := resp_text userAgent; reader_after := reader;
       returned := false; panicked := false |}
  else if strings.HasPrefix path "/files/" then
    let filename := strings.TrimPrefix path "/files/" in
    if bool_decide (method = "GET") then
      {| store := fs; written := handleFileGetRequest s fs filename;
         reader_after := reader; returned := false; panicked := false |}
    else if bool_decide (method = "POST") then
      match handleFilePostRequest s fs filename headers reader with
      | Done (fs, resp, reader) =>
        {| store := fs; written := resp; reader_after := reader; returned := false;
           panicked := false |}
      | Panic =>
        {| store := fs; written := ""; reader_after := bufio.NewReader [];
           returned := false; panicked := true |}
      end
    else
      {| store := fs; written := resp_405; reader_after := reader; returned := false;
         panicked := false |}
  else
    {| store := fs; written := resp_404_default; reader_after := reader;
       returned := false; panicked := false |}.

Definition shouldClose (headers : gmap string string) : bool :=
  let connectionHeader := header headers "Connection" in
  bool_decide (strings.ToLower connectionHeader = "close").

(** The loop.  The result is the file store when the function is left
    and, for each request it has read, the bytes that reached the
    connection in reply: a response, or nothing when the write failed or
    the pass panicked.  Every pass makes its reader anew over the
    connection, so what the reader of the pass before had buffered is
    gone.  A panic ends the function as a [return] does, and the process
    with it. *)
Fixpoint handleConnection_go (fuel : nat) (s : Server) (fs : FS) (conn : Conn)
  : FS * list string :=
  match fuel with
  | 0 => (fs, [])
  | S fuel =>
    match readRequestAndGetMethodPathAndHeaders conn with
    | Err _ => (fs, [])
    | Ok (method, path, headers, reader) =>
      let out := dispatch s fs method path headers reader in
      if panicked out || returned out || shouldClose headers
      then (store out, [written out])
      else
        let '(fs', resps) :=
          handleConnection_go fuel s (store out) (rd (reader_after out)) in
        (fs', written out :: resps)
    end
  end.

Definition handleConnection (s : Server) (fs : FS) (conn : Conn) : FS * list string :=
  handleConnection_go (net.size conn + 1) s fs conn.

End connection.

(** ** Vocabulary of the statements *)

(** The bytes a reader can still hand out before a read fails. *)
Definition contents (r : Reader) : string := buffered r +:+ net.pending (rd r).

(** The measure that bounds the reads still possible through a reader. *)
Definition weight (r : Reader) : nat := len (buffered r) + net.size (rd r).

(** A request on the wire: the request line, the header lines and the
    blank line, each ended by CR LF, then whatever follows. *)
Fixpoint header_block (lines : list string) : string :=
  match lines with
  | [] => ""
  | l :: ls => l +:+ CRLF +:+ header_block ls
  end.

Definition request (reqLine : string) (lines : list string) (rest : string) : string :=
  reqLine +:+ CRLF +:+ header_block lines +:+ CRLF +:+ rest.

(** A line that can stand in a header block: no line feed in it, and not
    empty, the empty line being the end of the block. *)
Definition header_line (l : string) : Prop :=
  strings.IndexByte l LF = None ∧ l ≠ "".

(** The header map after the lines of a block, in their order. *)
Definition headers_of (lines : list string) : gmap string string :=
  foldl (λ headers l, parse_header_line (l +:+ CRLF) headers) ∅ lines.

(** The value of the last line of the block that carries [name]. *)
Fixpoint last_value (name : string) (lines : list string) : option string :=
  match lines with
  | [] => None
  | l :: ls =>
    match last_value name ls with
    | Some v => Some v
    | None =>
      match header_field (l +:+ CRLF) with
      | Some (n, v) => if bool_decide (n = name) then Some v else None
      | None => None
      end
    end
  end.

(** The value of the first line of the block that carries [name]. *)
Fixpoint first_value (name : string) (lines : list string) : option string :=
  match lines with
  | [] => None
  | l :: ls =>
    match header_field (l +:+ CRLF) with
    | Some (n, v) => if bool_decide (n = name) then Some v else first_value name ls
    | None => first_value name ls
    end
  end.

(** A request line as the claims call it malformed. *)
Definition malformed_request_line (line : string) : Prop :=
  let parts := strings.Fields (strings.TrimRight line CRLF) in
  length parts ≠ 3 ∨
  ∃ method path version,
    parts = [method; path; version] ∧ strings.HasPrefix version "HTTP/" = false.

(** Two bytes that are the same up to the case of an ASCII letter, and
    two strings that are the same up to the case of their letters. *)
Definition is_upper (a : ascii) : Prop := 65 ≤ byte_val a ≤ 90.

Definition same_letter (a b : ascii) : Prop :=
  a = b
  ∨ (is_upper a ∧ byte_val b = byte_val a + 32)
  ∨ (is_upper b ∧ byte_val a = byte_val b + 32).

#[local] Instance same_letter_dec (a b : ascii) : Decision (same_letter a b).
Proof. unfold same_letter, is_upper. apply _. Defined.

Inductive equal_fold : string → string → Prop :=
| equal_fold_nil : equal_fold "" ""
| equal_fold_cons a b s t :
    same_letter a b → equal_fold s t → equal_fold (String a s) (String b t).

(** A string without upper-case ASCII letters. *)
Fixpoint lower_case (t : string) : Prop :=
  match t with
  | "" => True
  | String b t' => ¬ is_upper b ∧ lower_case t'
  end.

(** The requests that reach [handleFilePostRequest]. *)
Definition file_write_route (method path : string) : Prop :=
  path ≠ "/" ∧ strings.HasPrefix path "/echo/" = false ∧ path ≠ "/user-agent"
  ∧ strings.HasPrefix path "/files/" = true ∧ method = "POST".

(** The header names the program looks up. *)
Definition recognized : list string :=
  ["Connection"; "Content-Length"; "Accept-Encoding"; "User-Agent"].

(** The compressor never reports an error, as is the case of a
    [gzip.Writer] over a [bytes.Buffer], and what it produces
    decompresses to what it was given. *)
Definition gzip_never_fails `{Gzip} : Prop :=
  ∀ str, ∃ w z, gzip_Write str = Some w ∧ gzip_Close w = Some z.


(** ** Data of the examples *)

(** A compressor that stores its input behind the two magic bytes of the
    format. *)
Definition gzip_magic : string :=
  String (ascii_of_nat 31) (String (ascii_of_nat 139) "").

Definition stored_gzip : Gzip := {|
  gzip_Writer := string;
  gzip_Write str := Some str;
  gzip_Close w := Some (gzip_magic +:+ w);
  gzip_Decompress z :=
    if strings.HasPrefix z gzip_magic then Some (drop_str 2 z) else None;
|}.

Definition no_fault : fs_op → string → bool := λ _ _, false.
Definition empty_fs : FS := {| files := ∅; others := ∅; refused := no_fault |}.
Definition data_server : Server := {| directory := "/tmp/data" |}.

(** A file store that holds the base directory itself, for which the
    system reports a block of 4096 bytes and whose reads fail, and under
    it a file of a virtual file system, for which the system reports the
    size 0 and whose reads yield six bytes. *)
Definition special_fs : FS := {|
  files := ∅;
  others := {[ "/tmp/data" := {| reported := 4096; yields := "" |};
               "/tmp/data/version" := {| reported := 0; yields := "6.1.0" +:+ String LF "" |} ]};
  refused := no_fault;
|}.
Definition bare_server : Server := {| directory := "" |}.

(** ** Vocabulary of the further properties *)

(** The status lines the program can write. *)
Definition statuses : list string :=
  ["200 OK"; "201 Created"; "400 Bad Request"; "404 Not Found";
   "405 Method Not Allowed"; "500 Internal Server Error"].



(** The paths of the file store the server may write for a base
    directory. *)
Definition under_directory (s : Server) (path : string) : Prop :=
  directory s ≠ "" ∧ ∃ filename, path = filepath.Join [directory s; filename].

(** What a run of the server may do to the file store: no file
    disappears, a file changes only at a path joined from the base
    directory, and what the system refuses stays as it was. *)
Definition store_grows (s : Server) (fs fs' : FS) : Prop :=
  refused fs' = refused fs
  ∧ ∀ path,
      (is_Some (files fs !! path) → is_Some (files fs' !! path))
      ∧ (files fs' !! path ≠ files fs !! path → under_directory s path).

(** A request line that the parser accepts for a method and a path:
    three fields, the third a version that begins with [HTTP/]. *)
Definition request_line (method path reqLine : string) : Prop :=
  strings.IndexByte reqLine LF = None
  ∧ ∃ version,
      strings.Fields (strings.TrimRight reqLine CRLF) = [method; path; version]
      ∧ strings.HasPrefix version "HTTP/" = true.

(** A compressor whose writer reports an error when it is closed. *)
Definition failing_gzip : Gzip := {|
  gzip_Writer := string;
  gzip_Write str := Some str;
  gzip_Close w := None;
  gzip_Decompress z := None;
|}.

(** A connection on which no read fails before its end. *)
Definition no_deadline (c : Conn) : Prop := Forall (λ e, e ≠ Deadline) c.

(** The reader [b] when the events [more] follow on its connection. *)
Definition extend (more : Conn) (b : Reader) : Reader :=
  {| rd := rd b ++ more; buffered := buffered b |}.

(** * Properties *)

(** ** The library models on examples of Go's documentation and tests *)

Example Fields_spaces :
  strings.Fields "  foo bar  baz   " = ["foo"; "bar"; "baz"].
Proof. reflexivity. Qed.

Example Fields_request_line :
  strings.Fields ("GET" +:+ String "009" "" +:+ "/echo/abc  HTTP/1.1")
    = ["GET"; "/echo/abc"; "HTTP/1.1"].
Proof. reflexivity. Qed.

(** U+00A0, the no-break space, is white space for [Fields] and
    [TrimSpace]. *)
Example Fields_no_break_space :
  strings.Fields ("a" +:+ String (ascii_of_nat 194) (String (ascii_of_nat 160) "b"))
    = ["a"; "b"].
Proof. reflexivity. Qed.

Example TrimSpace_both_sides :
  strings.TrimSpace (String "009" (String LF " Hello, Gophers " +:+ CRLF))
    = "Hello, Gophers".
Proof. reflexivity. Qed.

Example TrimRight_line : strings.TrimRight ("Host: x" +:+ CRLF) CRLF = "Host: x".
Proof. reflexivity. Qed.

Example TrimPrefix_absent : strings.TrimPrefix "/files/a" "/echo/" = "/files/a".
Proof. reflexivity. Qed.

Example Contains_gzip : strings.Contains "deflate, gzip;q=0.5" "gzip" = true.
Proof. reflexivity. Qed.

Example Index_first_colon : strings.Index "Host: localhost:4221" ":" = Some 4.
Proof. reflexivity. Qed.

Example ToLower_mixed : strings.ToLower "Keep-Alive" = "keep-alive".
Proof. reflexivity. Qed.

Example Atoi_examples :
  strconv.Atoi "" = None ∧ strconv.Atoi "0" = Some 0%Z
  ∧ strconv.Atoi "-0" = Some 0%Z ∧ strconv.Atoi "+1" = Some 1%Z
  ∧ strconv.Atoi "012345" = Some 12345%Z ∧ strconv.Atoi "12345x" = None
  ∧ strconv.Atoi "-" = None ∧ strconv.Atoi "1_2" = None ∧ strconv.Atoi " 1" = None
  ∧ strconv.Atoi "9223372036854775807" = Some 9223372036854775807%Z
  ∧ strconv.Atoi "9223372036854775808" = None
  ∧ strconv.Atoi "-9223372036854775808" = Some (-9223372036854775808)%Z
  ∧ strconv.Atoi "-9223372036854775809" = None.
Proof. repeat split; reflexivity. Qed.

Example fmt_d_examples : fmt.d 0 = "0" ∧ fmt.d 3 = "3" ∧ fmt.d 1024 = "1024".
Proof. repeat split; reflexivity. Qed.

Example Clean_examples :
  filepath.Clean "" = "." ∧ filepath.Clean "/" = "/" ∧ filepath.Clean "abc/" = "abc"
  ∧ filepath.Clean "abc//def//ghi" = "abc/def/ghi"
  ∧ filepath.Clean "abc/./../def" = "def"
  ∧ filepath.Clean "/../abc" = "/abc"
  ∧ filepath.Clean "../../abc" = "../../abc"
  ∧ filepath.Clean "abc/def/../../.." = ".."
  ∧ filepath.Clean "/abc/def/../../.." = "/"
  ∧ filepath.Clean "abc/def/../../../ghi/jkl/../../../mno" = "../../mno"
  ∧ filepath.Clean "abc/./../def/.." = ".".
Proof. repeat split; reflexivity. Qed.

Example Join_examples :
  filepath.Join ["a"; "b"] = "a/b" ∧ filepath.Join ["a"; ""] = "a"
  ∧ filepath.Join [""; "b"] = "b" ∧ filepath.Join [""; ""] = ""
  ∧ filepath.Join ["/tmp/data"; "notes.txt"] = "/tmp/data/notes.txt"
  ∧ filepath.Join ["/tmp/data"; "a/../../../etc/passwd"] = "/etc/passwd".
Proof. repeat split; reflexivity. Qed.

Example main_directory_examples :
  main_directory ["server"; "--directory"; "/tmp/data"] = "/tmp/data"
  ∧ main_directory ["server"] = ""
  ∧ main_directory ["server"; "--directory"] = "".
Proof. repeat split; reflexivity. Qed.

(** ** The file store on what is not a regular file *)

(** The file name may be empty: the joined path is then the base
    directory, which opens, and the answer is 200 with its reported size
    and no body. *)
Example get_base_directory :
  handleFileGetRequest data_server special_fs ""
    = "HTTP/1.1 200 OK" +:+ CRLF +:+ "Content-Type: application/octet-stream" +:+ CRLF
      +:+ "Content-Length: 4096" +:+ CRLF +:+ CRLF.
Proof. vm_compute. reflexivity. Qed.

(** The declared length is the size reported, not the number of bytes
    sent. *)
Example get_virtual_file :
  handleFileGetRequest data_server special_fs "version"
    = "HTTP/1.1 200 OK" +:+ CRLF +:+ "Content-Type: application/octet-stream" +:+ CRLF
      +:+ "Content-Length: 0" +:+ CRLF +:+ CRLF +:+ "6.1.0" +:+ String LF "".
Proof. vm_compute. reflexivity. Qed.

(** [make] at the two sides of the limit. *)
Example makeslice_examples :
  runtime.makeslice 5 = Done 5
  ∧ runtime.makeslice (2 ^ 48) = Done (Z.to_nat (2 ^ 48))
  ∧ runtime.makeslice (2 ^ 48 + 1) = Panic
  ∧ runtime.makeslice strconv.maxInt = Panic
  ∧ runtime.makeslice (-1) = Panic.
Proof. split_and!; reflexivity. Qed.


(** ** Strings *)

Lemma app_nil_l_str (s : string) : "" +:+ s = s.
Proof. reflexivity. Qed.

Lemma app_cons_str (a : ascii) (s t : string) :
  String a s +:+ t = String a (s +:+ t).
Proof. reflexivity. Qed.

Lemma app_nil_r_str (s : string) : s +:+ "" = s.
Proof. induction s as [|a s IH]; [done|]. by rewrite app_cons_str, IH. Qed.

Lemma app_assoc_str (s t u : string) : (s +:+ t) +:+ u = s +:+ t +:+ u.
Proof. induction s as [|a s IH]; [done|]. by rewrite !app_cons_str, IH. Qed.

Lemma len_app (s t : string) : len (s +:+ t) = len s + len t.
Proof. induction s as [|a s IH]; [done|]. rewrite app_cons_str. simpl. by rewrite IH. Qed.

Lemma len_zero (s : string) : len s = 0 → s = "".
Proof. by destruct s. Qed.

Lemma len_pos (s : string) : s ≠ "" → 0 < len s.
Proof. destruct s; simpl; [done|lia]. Qed.

Lemma take_drop_str (n : nat) (s : string) : take_str n s +:+ drop_str n s = s.
Proof.
  revert s. induction n as [|n IH]; intros [|a s]; try done.
  simpl. by rewrite app_cons_str, IH.
Qed.

Lemma len_take (n : nat) (s : string) : len (take_str n s) = n `min` len s.
Proof.
  revert s. induction n as [|n IH]; intros [|a s]; try done.
  simpl. by rewrite IH.
Qed.

Lemma len_drop (n : nat) (s : string) : len (drop_str n s) = len s - n.
Proof. revert s. induction n as [|n IH]; intros [|a s]; try done. simpl. apply IH. Qed.

Lemma take_app_len (s t : string) : take_str (len s) (s +:+ t) = s.
Proof.
  induction s as [|a s IH]; [by destruct t|].
  rewrite app_cons_str. simpl. by rewrite IH.
Qed.

Lemma drop_app_len (s t : string) : drop_str (len s) (s +:+ t) = t.
Proof. induction s as [|a s IH]; [by destruct t|]. by rewrite app_cons_str. Qed.



Lemma take_app_le (n : nat) (s t : string) :
  n ≤ len s → take_str n (s +:+ t) = take_str n s.
Proof.
  revert s. induction n as [|n IH]; intros [|a s] Hn; simpl in *; try done; try lia.
  rewrite IH; [done|lia].
Qed.

Lemma drop_app_le (n : nat) (s t : string) :
  n ≤ len s → drop_str n (s +:+ t) = drop_str n s +:+ t.
Proof.
  revert s. induction n as [|n IH]; intros [|a s] Hn; simpl in *; try done; try lia.
  apply IH. lia.
Qed.

Lemma take_app_ge (n : nat) (s t : string) :
  len s ≤ n → take_str n (s +:+ t) = s +:+ take_str (n - len s) t.
Proof.
  revert n. induction s as [|a s IH]; intros n Hn; simpl in *.
  - by rewrite Nat.sub_0_r.
  - destruct n as [|n]; [lia|]. rewrite !app_cons_str. simpl. rewrite IH; [done|lia].
Qed.

Lemma drop_app_ge (n : nat) (s t : string) :
  len s ≤ n → drop_str n (s +:+ t) = drop_str (n - len s) t.
Proof.
  revert n. induction s as [|a s IH]; intros n Hn; simpl in *.
  - by rewrite Nat.sub_0_r.
  - destruct n as [|n]; [lia|]. rewrite app_cons_str. simpl. apply IH. lia.
Qed.

Lemma drop_drop_str (n m : nat) (s : string) :
  drop_str n (drop_str m s) = drop_str (m + n) s.
Proof.
  revert s. induction m as [|m IH]; intros s; [done|].
  destruct s as [|a s]; simpl; [by destruct n|]. apply IH.
Qed.

Lemma take_take_drop (n m : nat) (s : string) :
  take_str n s +:+ take_str m (drop_str n s) = take_str (n + m) s.
Proof.
  revert s. induction n as [|n IH]; intros s; [done|].
  destruct s as [|a s]; simpl; [by destruct m|]. by rewrite app_cons_str, IH.
Qed.

Lemma app_inv_head_str (s t u : string) : s +:+ t = s +:+ u → t = u.
Proof. apply (inj (String.app s)). Qed.

(** *** The first occurrence of a byte *)

Lemma IndexByte_Some (s : string) (c : ascii) (i : nat) :
  strings.IndexByte s c = Some i →
  strings.IndexByte (take_str i s) c = None
  ∧ s = take_str i s +:+ String c (drop_str (S i) s).
Proof.
  revert i. induction s as [|a s IH]; intros i; simpl; [done|].
  destruct (Ascii.eqb_spec a c) as [->|Hne].
  - intros [= <-]. done.
  - destruct (strings.IndexByte s c) as [j|] eqn:Hj; [|done].
    intros [= <-]. destruct (IH j eq_refl) as [Hnone Hs].
    change (drop_str (S (S j)) (String a s)) with (drop_str (S j) s).
    change (take_str (S j) (String a s)) with (String a (take_str j s)).
    rewrite app_cons_str, <- Hs. split; [|done]. simpl.
    destruct (Ascii.eqb_spec a c); [done|]. by rewrite Hnone.
Qed.

Lemma IndexByte_app_None (s t : string) (c : ascii) :
  strings.IndexByte s c = None →
  strings.IndexByte (s +:+ t) c = (λ i, len s + i) <$> strings.IndexByte t c.
Proof.
  induction s as [|a s IH].
  - intros _. rewrite app_nil_l_str. by destruct (strings.IndexByte t c).
  - rewrite app_cons_str. simpl. destruct (Ascii.eqb a c); [done|].
    destruct (strings.IndexByte s c) eqn:Hs; [done|]. intros _.
    rewrite IH by done. by destruct (strings.IndexByte t c).
Qed.

Lemma IndexByte_app_found (s t : string) (c : ascii) :
  strings.IndexByte s c = None →
  strings.IndexByte (s +:+ String c t) c = Some (len s).
Proof.
  intros Hs. rewrite IndexByte_app_None by done. simpl.
  rewrite Ascii.eqb_refl. simpl. f_equal. lia.
Qed.

Lemma IndexByte_app_l (s t : string) (c : ascii) :
  strings.IndexByte (s +:+ t) c = None →
  strings.IndexByte s c = None ∧ strings.IndexByte t c = None.
Proof.
  induction s as [|a s IH]; [done|].
  rewrite app_cons_str. simpl. destruct (Ascii.eqb a c); [done|].
  destruct (strings.IndexByte (s +:+ t) c) eqn:Hst; [done|]. intros _.
  destruct IH as [-> ->]; done.
Qed.

(** A string is cut at the first occurrence of a byte in one way only. *)
Lemma first_cut_unique (c : ascii) (s s' t t' : string) :
  strings.IndexByte s c = None → strings.IndexByte s' c = None →
  s +:+ String c t = s' +:+ String c t' → s = s' ∧ t = t'.
Proof.
  revert s'. induction s as [|a s IH]; intros [|a' s'] Hs Hs'; simpl in *.
  - by intros [= ->].
  - rewrite app_cons_str. intros [= <- _]. by rewrite Ascii.eqb_refl in Hs'.
  - rewrite app_cons_str. intros [= -> _]. by rewrite Ascii.eqb_refl in Hs.
  - rewrite !app_cons_str. intros [= <- Heq].
    destruct (Ascii.eqb a c); [done|].
    destruct (strings.IndexByte s c) eqn:H1; [done|].
    destruct (strings.IndexByte s' c) eqn:H2; [done|].
    destruct (IH s' eq_refl H2 Heq) as [-> ->]. done.
Qed.

(** A string without the byte that begins a string cut at that byte is a
    prefix of the part before the cut. *)
Lemma before_cut (c : ascii) (s u line rest : string) :
  strings.IndexByte s c = None → strings.IndexByte line c = None →
  s +:+ u = line +:+ String c rest →
  ∃ line', line = s +:+ line' ∧ u = line' +:+ String c rest.
Proof.
  revert line. induction s as [|a s IH]; intros line Hs Hline; simpl in *.
  - rewrite app_nil_l_str. intros ->. by exists line.
  - rewrite app_cons_str. destruct line as [|b line]; simpl in *.
    + rewrite app_nil_l_str. intros [= -> _]. by rewrite Ascii.eqb_refl in Hs.
    + rewrite app_cons_str. intros [= <- Heq].
      destruct (Ascii.eqb a c); [done|].
      destruct (strings.IndexByte s c) eqn:H1; [done|].
      destruct (strings.IndexByte line c) eqn:H2; [done|].
      destruct (IH line eq_refl H2 Heq) as (line' & -> & ->).
      by exists line'.
Qed.

(** *** Prefixes *)

Lemma HasPrefix_app (p s : string) : strings.HasPrefix (p +:+ s) p = true.
Proof.
  unfold strings.HasPrefix. induction p as [|a p IH]; [by destruct s|].
  rewrite app_cons_str. simpl. destruct (ascii_dec a a); done.
Qed.

Lemma TrimPrefix_app (p s : string) : strings.TrimPrefix (p +:+ s) p = s.
Proof. unfold strings.TrimPrefix. by rewrite HasPrefix_app, drop_app_len. Qed.

Lemma HasPrefix_inv (s p : string) :
  strings.HasPrefix s p = true → s = p +:+ drop_str (len p) s.
Proof.
  unfold strings.HasPrefix. revert s. induction p as [|a p IH]; intros s; [by destruct s|].
  destruct s as [|b s]; simpl; [done|]. destruct (ascii_dec a b) as [->|]; [|done].
  intros Hp. rewrite app_cons_str. f_equal. by apply IH.
Qed.

Lemma IndexByte_take_S (s : string) (c : ascii) (i : nat) :
  strings.IndexByte s c = Some i →
  take_str (S i) s = take_str i s +:+ String c "" ∧ i < len s.
Proof.
  revert i. induction s as [|a s IH]; intros i; simpl; [done|].
  destruct (Ascii.eqb_spec a c) as [->|Hne].
  - intros [= <-]. split; [by destruct s|lia].
  - destruct (strings.IndexByte s c) as [j|] eqn:Hj; [|done].
    intros [= <-]. destruct (IH j eq_refl) as [Ht Hlt].
    change (take_str (S (S j)) (String a s)) with (String a (take_str (S j) s)).
    change (take_str (S j) (String a s)) with (String a (take_str j s)).
    rewrite Ht, app_cons_str. split; [done|lia].
Qed.

(** ** The connection *)

Lemma net_Read_Some (cap : nat) (c c' : Conn) (chunk : string) :
  0 < cap → net.Read cap c = (Some chunk, c') →
  chunk ≠ "" ∧ len chunk ≤ cap
  ∧ net.pending c = chunk +:+ net.pending c'
  ∧ net.size c' + len chunk ≤ net.size c.
Proof.
  intros Hcap. induction c as [|[seg|] c IH]; simpl; [done| |done].
  case_bool_decide as Hseg.
  - subst seg. intros Hr. destruct (IH Hr) as (? & ? & ? & ?).
    rewrite app_nil_l_str. simpl. split_and!; [done..|lia].
  - destruct (Nat.leb_spec (len seg) cap) as [Hle|Hgt]; intros [= <- <-].
    + simpl. split_and!; [done|done|done|lia].
    + simpl. rewrite <- app_assoc_str, take_drop_str, len_take, len_drop.
      split_and!; [|lia|done|lia].
      intros Ht. apply (f_equal len) in Ht. rewrite len_take in Ht. simpl in Ht. lia.
Qed.

Lemma net_Read_None (cap : nat) (c c' : Conn) :
  net.Read cap c = (None, c') →
  net.pending c = "" ∧ net.size c' ≤ net.size c.
Proof.
  induction c as [|[seg|] c IH]; simpl.
  - by intros [= <-].
  - case_bool_decide as Hseg.
    + subst seg. intros Hr. destruct (IH Hr) as [-> ?]. split; [done|lia].
    + by destruct (len seg <=? cap).
  - intros [= <-]. split; [done|lia].
Qed.

(** ** [bufio.Reader.ReadString] *)

Lemma defaultBufSize_pos : 0 < bufio.defaultBufSize.
Proof. unfold bufio.defaultBufSize. lia. Qed.

#[local] Opaque bufio.defaultBufSize.

(** Whatever the segments, a reader whose stream has a line in it hands
    out that line and keeps what follows. *)
Lemma ReadString_go_spec (fuel : nat) (acc : string) (b : Reader) (delim : ascii)
    (line rest : string) :
  2 * net.size (rd b)
    + (if bufio.defaultBufSize <=? len (buffered b) then 2 else 1) ≤ fuel →
  strings.IndexByte line delim = None →
  contents b = line +:+ String delim rest →
  ∃ b', bufio.ReadString_go fuel acc b delim = Ok (acc +:+ line +:+ String delim "", b')
        ∧ contents b' = rest.
Proof.
  pose proof defaultBufSize_pos as Hpos.
  revert acc b line. induction fuel as [|fuel IH]; intros acc [c buf] line; simpl.
  { destruct (_ <=? _); lia. }
  unfold contents; simpl. intros Hfuel Hline Hc.
  destruct (strings.IndexByte buf delim) as [i|] eqn:Hi.
  - destruct (IndexByte_Some _ _ _ Hi) as [Hnone Hbuf].
    destruct (IndexByte_take_S _ _ _ Hi) as [Htake _].
    rewrite Hbuf, app_assoc_str, app_cons_str in Hc.
    destruct (first_cut_unique _ _ _ _ _ Hnone Hline Hc) as [Hl Hr].
    eexists. split; [by rewrite Htake, Hl|exact Hr].
  - revert Hfuel.
    destruct (Nat.leb_spec bufio.defaultBufSize (len buf)) as [Hfull|Hroom]; intros Hfuel.
    + destruct (before_cut _ _ _ _ _ Hi Hline Hc) as (line' & -> & Hp).
      apply IndexByte_app_l in Hline as [_ Hline'].
      destruct (IH (acc +:+ buf) {| rd := c; buffered := "" |} line') as (b' & -> & Hb');
        [|done|done|].
      { simpl. destruct (Nat.leb_spec bufio.defaultBufSize 0); lia. }
      exists b'. by rewrite !app_assoc_str.
    + destruct (net.Read (bufio.defaultBufSize - len buf) c) as [[chunk|] c'] eqn:Hread.
      * apply net_Read_Some in Hread as (Hne & _ & Hp & Hsz); [|lia].
        assert (0 < len chunk) by (destruct chunk; simpl; [done|lia]).
        apply (IH acc {| rd := c'; buffered := buf +:+ chunk |} line);
          [simpl; destruct (_ <=? _); lia|done|].
        unfold contents; simpl. by rewrite app_assoc_str, <- Hp.
      * apply net_Read_None in Hread as [Hp _]. rewrite Hp, app_nil_r_str in Hc.
        subst buf. by rewrite IndexByte_app_found in Hi.
Qed.

Lemma ReadString_spec (c : Conn) (buf : string) (delim : ascii) (line rest : string) :
  strings.IndexByte line delim = None →
  buf +:+ net.pending c = line +:+ String delim rest →
  ∃ b', bufio.ReadString {| rd := c; buffered := buf |} delim
          = Ok (line +:+ String delim "", b')
        ∧ contents b' = rest.
Proof.
  intros Hline Hc. unfold bufio.ReadString.
  apply (ReadString_go_spec _ "" {| rd := c; buffered := buf |}); [|done..].
  simpl. destruct (_ <=? _); lia.
Qed.

(** A line handed out has been taken from the stream: the connection
    does not grow, the reader has less to give, and a reader that had
    nothing buffered has read from the connection. *)
Lemma ReadString_go_shrink (fuel : nat) (acc : string) (b b' : Reader)
    (delim : ascii) (line : string) :
  bufio.ReadString_go fuel acc b delim = Ok (line, b') →
  net.size (rd b') ≤ net.size (rd b)
  ∧ weight b' < weight b
  ∧ (buffered b = "" → net.size (rd b') < net.size (rd b)).
Proof.
  revert acc b. induction fuel as [|fuel IH]; intros acc [c buf]; simpl; [done|].
  unfold weight; simpl.
  destruct (strings.IndexByte buf delim) as [i|] eqn:Hi.
  - intros [= _ <-]; simpl. apply IndexByte_take_S in Hi as [_ Hlt].
    rewrite len_drop. repeat split; [lia..|]. intros ->. simpl in Hlt. lia.
  - destruct (Nat.leb_spec bufio.defaultBufSize (len buf)) as [Hfull|Hroom].
    + intros Hgo. apply IH in Hgo as (H1 & H2 & _). unfold weight in H2; simpl in *.
      pose proof defaultBufSize_pos.
      repeat split; [lia..|]. intros ->. simpl in Hfull. lia.
    + destruct (net.Read (bufio.defaultBufSize - len buf) c) as [[chunk|] c'] eqn:Hread;
        [|done].
      apply net_Read_Some in Hread as (Hne & _ & _ & Hsz); [|lia].
      assert (0 < len chunk) by (destruct chunk; simpl; [done|lia]).
      intros Hgo. apply IH in Hgo as (H1 & H2 & _). unfold weight in H2; simpl in *.
      rewrite len_app in H2. repeat split; lia.
Qed.

Lemma ReadString_shrink (b b' : Reader) (delim : ascii) (line : string) :
  bufio.ReadString b delim = Ok (line, b') →
  net.size (rd b') ≤ net.size (rd b)
  ∧ weight b' < weight b
  ∧ (buffered b = "" → net.size (rd b') < net.size (rd b)).
Proof. apply ReadString_go_shrink. Qed.

(** The fuel of [ReadString] is enough: a call never stops for want of
    it, so more of it changes nothing. *)
Lemma ReadString_go_fuel (fuel fuel' : nat) (acc : string) (b : Reader) (delim : ascii) :
  2 * net.size (rd b)
    + (if bufio.defaultBufSize <=? len (buffered b) then 2 else 1) ≤ fuel →
  2 * net.size (rd b)
    + (if bufio.defaultBufSize <=? len (buffered b) then 2 else 1) ≤ fuel' →
  bufio.ReadString_go fuel acc b delim = bufio.ReadString_go fuel' acc b delim.
Proof.
  pose proof defaultBufSize_pos as Hpos.
  revert fuel' acc b. induction fuel as [|fuel IH]; intros fuel' acc [c buf]; simpl.
  { destruct (_ <=? _); lia. }
  destruct fuel' as [|fuel']; [destruct (_ <=? _); lia|]. simpl.
  destruct (strings.IndexByte buf delim) as [i|]; [done|].
  destruct (Nat.leb_spec bufio.defaultBufSize (len buf)) as [Hfull|Hroom];
    intros Hf Hf'.
  - apply IH; simpl; destruct (Nat.leb_spec bufio.defaultBufSize 0); lia.
  - destruct (net.Read (bufio.defaultBufSize - len buf) c) as [[chunk|] c'] eqn:Hread;
      [|done].
    apply net_Read_Some in Hread as (Hne%len_pos & _ & _ & Hsz); [|lia].
    apply IH; simpl; destruct (_ <=? _); lia.
Qed.

Lemma ReadString_fuel (fuel : nat) (b : Reader) (delim : ascii) :
  2 * net.size (rd b) + 2 ≤ fuel →
  bufio.ReadString_go fuel "" b delim = bufio.ReadString b delim.
Proof.
  intros Hf. unfold bufio.ReadString.
  apply ReadString_go_fuel; destruct (_ <=? _); lia.
Qed.

(** ** The request line and the header block *)

Lemma TrimRight_CRLF (s : string) :
  strings.TrimRight (s +:+ CRLF) CRLF = strings.TrimRight s CRLF.
Proof.
  induction s as [|a s IH]; [done|].
  rewrite app_cons_str. simpl. by rewrite IH.
Qed.

Lemma IndexByte_snoc_CR (l : string) :
  strings.IndexByte l LF = None → strings.IndexByte (l +:+ String CR "") LF = None.
Proof. intros Hl. rewrite IndexByte_app_None by done. done. Qed.

Lemma line_CRLF (l : string) : (l +:+ String CR "") +:+ String LF "" = l +:+ CRLF.
Proof. by rewrite app_assoc_str. Qed.

Lemma header_line_not_blank (l : string) : l ≠ "" → l +:+ CRLF ≠ CRLF.
Proof.
  intros Hl Heq. apply (f_equal len) in Heq. rewrite len_app in Heq.
  destruct l; simpl in *; [done|lia].
Qed.

(** The loop over the header lines reads the block line by line and
    leaves the reader after the blank line. *)
Lemma read_headers_spec (lines : list string) (rest : string) :
  Forall header_line lines →
  ∀ fuel r headers,
    weight r < fuel →
    contents r = header_block lines +:+ CRLF +:+ rest →
    ∃ r', read_headers fuel r headers
            = Ok (foldl (λ h l, parse_header_line (l +:+ CRLF) h) headers lines, r')
          ∧ contents r' = rest.
Proof.
  induction 1 as [|l lines [Hlf Hne] _ IH]; intros fuel [c buf] headers Hfuel Hc;
    (destruct fuel as [|fuel]; [lia|]); unfold contents in Hc; simpl in Hc |- *.
  - destruct (ReadString_spec c buf LF (String CR "") rest) as (r' & -> & Hr');
      [done|by rewrite Hc|].
    rewrite bool_decide_eq_true_2 by done. by exists r'.
  - rewrite !app_assoc_str in Hc.
    destruct (ReadString_spec c buf LF (l +:+ String CR "")
                (header_block lines +:+ CRLF +:+ rest)) as (r' & Hread & Hr').
    { by apply IndexByte_snoc_CR. }
    { by rewrite Hc, !app_assoc_str. }
    rewrite Hread, line_CRLF.
    rewrite bool_decide_eq_false_2 by by apply header_line_not_blank.
    apply ReadString_shrink in Hread as (_ & Hw & _).
    apply IH; [lia|done].
Qed.

Lemma read_headers_shrink (fuel : nat) (r r' : Reader) (headers headers' : gmap string string) :
  read_headers fuel r headers = Ok (headers', r') →
  net.size (rd r') ≤ net.size (rd r).
Proof.
  revert r headers. induction fuel as [|fuel IH]; intros r headers; simpl; [done|].
  destruct (bufio.ReadString r LF) as [[line r1]|e] eqn:Hread; [|done].
  apply ReadString_shrink in Hread as (Hsz & _ & _).
  case_bool_decide.
  - intros [= _ <-]. done.
  - intros Hgo. apply IH in Hgo. lia.
Qed.

Lemma read_headers_fuel (fuel fuel' : nat) (r : Reader) (headers : gmap string string) :
  weight r < fuel → weight r < fuel' →
  read_headers fuel r headers = read_headers fuel' r headers.
Proof.
  revert fuel' r headers. induction fuel as [|fuel IH]; intros fuel' r headers Hf Hf';
    [lia|].
  destruct fuel' as [|fuel']; [lia|]. simpl.
  destruct (bufio.ReadString r LF) as [[line r1]|e] eqn:Hread; [|done].
  apply ReadString_shrink in Hread as (_ & Hw & _).
  case_bool_decide; [done|]. apply IH; lia.
Qed.

(** A request that was parsed has been taken from the connection. *)
Lemma readRequest_shrink (conn : Conn) (method path : string)
    (headers : gmap string string) (reader : Reader) :
  readRequestAndGetMethodPathAndHeaders conn = Ok (method, path, headers, reader) →
  net.size (rd reader) < net.size conn.
Proof.
  unfold readRequestAndGetMethodPathAndHeaders.
  destruct (bufio.ReadString (bufio.NewReader conn) LF) as [[reqLine r]|e] eqn:Hread;
    [|done].
  apply ReadString_shrink in Hread as (_ & _ & Hlt). specialize (Hlt eq_refl).
  simpl in Hlt.
  destruct (strings.Fields _) as [|m [|p [|v [|]]]]; try done.
  destruct (strings.HasPrefix v "HTTP/"); simpl; [|done].
  destruct (read_headers _ r ∅) as [[h r']|e] eqn:Hh; [|done].
  apply read_headers_shrink in Hh. intros [= _ _ _ <-]. lia.
Qed.

(** Whatever the segments in which it arrives, a request on the wire is
    parsed into its method, its path and the map of its header lines,
    and the reader is left at the byte after the blank line. *)
Lemma readRequest_wire (conn : Conn) (reqLine : string) (lines : list string)
    (rest method path version : string) :
  net.pending conn = request reqLine lines rest →
  strings.IndexByte reqLine LF = None →
  Forall header_line lines →
  strings.Fields (strings.TrimRight reqLine CRLF) = [method; path; version] →
  strings.HasPrefix version "HTTP/" = true →
  ∃ reader,
    readRequestAndGetMethodPathAndHeaders conn
      = Ok (method, path, headers_of lines, reader)
    ∧ contents reader = rest.
Proof.
  intros Hc Hlf Hlines Hfields Hver. unfold readRequestAndGetMethodPathAndHeaders.
  unfold request in Hc.
  destruct (ReadString_spec conn "" LF (reqLine +:+ String CR "")
              (header_block lines +:+ CRLF +:+ rest)) as (r & Hread & Hr).
  { by apply IndexByte_snoc_CR. }
  { by rewrite app_nil_l_str, Hc, !app_assoc_str. }
  unfold bufio.NewReader. rewrite Hread, line_CRLF, TrimRight_CRLF, Hfields, Hver.
  simpl.
  destruct (read_headers_spec lines rest Hlines
              (len (buffered r) + net.size (rd r) + 1) r ∅) as (r' & -> & Hr');
    [unfold weight; lia|done|].
  by exists r'.
Qed.

(** ** [io.ReadFull] *)

Lemma bufio_Read_Some (b b' : Reader) (n : nat) (p : string) :
  0 < n → bufio.Read b n = (Some p, b') →
  0 < len p ∧ len p ≤ n
  ∧ contents b = p +:+ contents b'
  ∧ weight b' < weight b
  ∧ net.size (rd b') ≤ net.size (rd b).
Proof.
  pose proof defaultBufSize_pos as Hpos.
  destruct b as [c buf]. unfold bufio.Read, contents, weight; simpl. intros Hn.
  case_bool_decide as Hbuf; simpl.
  - subst buf. destruct (Nat.leb_spec bufio.defaultBufSize n) as [Hbig|Hsmall].
    + destruct (net.Read n c) as [[chunk|] c'] eqn:Hread; intros [= <- <-]; simpl.
      apply net_Read_Some in Hread as (Hne & Hle & Hp & Hsz); [|done].
      apply len_pos in Hne. rewrite !app_nil_l_str. split_and!; [done..|lia|lia].
    + destruct (net.Read bufio.defaultBufSize c) as [[chunk|] c'] eqn:Hread;
        intros [= <- <-]; simpl.
      apply net_Read_Some in Hread as (Hne & Hle & Hp & Hsz); [|done].
      apply len_pos in Hne. rewrite len_take, len_drop, app_nil_l_str, Hp.
      rewrite <- app_assoc_str, take_drop_str. split_and!; [lia|lia|done|lia|lia].
  - intros [= <- <-]; simpl. apply len_pos in Hbuf.
    rewrite len_take, len_drop, <- app_assoc_str, take_drop_str.
    split_and!; [lia|lia|done|lia|lia].
Qed.

Lemma bufio_Read_None (b b' : Reader) (n : nat) :
  bufio.Read b n = (None, b') →
  contents b = "" ∧ net.size (rd b') ≤ net.size (rd b).
Proof.
  destruct b as [c buf]. unfold bufio.Read, contents; simpl.
  case_bool_decide as Hbuf; simpl; [|done]. subst buf.
  destruct (_ <=? _).
  - destruct (net.Read n c) as [[chunk|] c'] eqn:Hread; intros [= <-]; simpl.
    by apply net_Read_None in Hread.
  - destruct (net.Read _ c) as [[chunk|] c'] eqn:Hread; intros [= <-]; simpl.
    by apply net_Read_None in Hread.
Qed.

(** A read that succeeds takes bytes only: a stall that was ahead of it
    is still ahead. *)
Lemma net_Read_no_deadline (cap : nat) (c c' : Conn) (got : option string) :
  no_deadline c → net.Read cap c = (got, c') → no_deadline c'.
Proof.
  unfold no_deadline. induction c as [|[seg|] c IH]; simpl; intros Hc.
  - by intros [= <- <-].
  - apply Forall_cons in Hc as [_ Hc]. case_bool_decide; [by apply IH|].
    destruct (_ <=? _); intros [= <- <-]; [done|]. by constructor.
  - by apply Forall_cons in Hc as [? _].
Qed.

Lemma net_Read_Some_stall (cap : nat) (c c' : Conn) (chunk : string) :
  net.Read cap c = (Some chunk, c') → Deadline ∈ c → Deadline ∈ c'.
Proof.
  induction c as [|[seg|] c IH]; simpl; [done| |done].
  intros Hread Hin. apply elem_of_cons in Hin as [?|Hin]; [done|].
  revert Hread. case_bool_decide; [by auto|].
  destruct (_ <=? _); intros [= <- <-]; [done|]. by right.
Qed.

(** Why a read fails: the stream has ended when no stall is ahead, and
    the deadline has passed when one is. *)
Lemma net_Read_None_error (cap : nat) (c c' : Conn) :
  net.Read cap c = (None, c') →
  (no_deadline c → read_error c = io_error)
  ∧ (Deadline ∈ c → read_error c = deadline_exceeded).
Proof.
  unfold read_error, no_deadline. induction c as [|[seg|] c IH]; simpl.
  - intros _. split; [done|]. by intros ?%elem_of_nil.
  - case_bool_decide; [|by destruct (_ <=? _)].
    intros Hread. destruct (IH Hread) as [Hend Hstall]. split.
    + intros [_ ?]%Forall_cons. by apply Hend.
    + intros [?|?]%elem_of_cons; [done|]. by apply Hstall.
  - intros _. split; [|done]. by intros [? _]%Forall_cons.
Qed.

Lemma bufio_Read_no_deadline (b b' : Reader) (n : nat) (got : option string) :
  no_deadline (rd b) → bufio.Read b n = (got, b') → no_deadline (rd b').
Proof.
  destruct b as [c buf]. unfold bufio.Read; simpl. intros Hc.
  case_bool_decide; simpl; [|by intros [= _ <-]].
  destruct (_ <=? _).
  - destruct (net.Read n c) as [got' c'] eqn:Hread. intros [= _ <-].
    by eapply net_Read_no_deadline.
  - destruct (net.Read _ c) as [[chunk|] c'] eqn:Hread; intros [= _ <-];
      by eapply net_Read_no_deadline.
Qed.

Lemma bufio_Read_Some_stall (b b' : Reader) (n : nat) (p : string) :
  bufio.Read b n = (Some p, b') → Deadline ∈ rd b → Deadline ∈ rd b'.
Proof.
  destruct b as [c buf]. unfold bufio.Read; simpl.
  case_bool_decide; simpl; [|by intros [= _ <-]].
  destruct (_ <=? _).
  - destruct (net.Read n c) as [[chunk|] c'] eqn:Hread; intros [= _ <-]; simpl.
    by eapply net_Read_Some_stall.
  - destruct (net.Read _ c) as [[chunk|] c'] eqn:Hread; intros [= _ <-]; simpl.
    by eapply net_Read_Some_stall.
Qed.

Lemma bufio_Read_None_error (b b' : Reader) (n : nat) :
  bufio.Read b n = (None, b') →
  (no_deadline (rd b) → read_error (rd b) = io_error)
  ∧ (Deadline ∈ rd b → read_error (rd b) = deadline_exceeded).
Proof.
  destruct b as [c buf]. unfold bufio.Read; simpl.
  case_bool_decide; simpl; [|done].
  destruct (_ <=? _).
  - destruct (net.Read n c) as [[chunk|] c'] eqn:Hread; intros [= <-].
    by eapply net_Read_None_error.
  - destruct (net.Read _ c) as [[chunk|] c'] eqn:Hread; intros [= <-].
    by eapply net_Read_None_error.
Qed.

Lemma ReadFull_go_S (fuel : nat) (b : Reader) (need : nat) (got : string) :
  0 < need →
  io.ReadFull_go (S fuel) b need got =
    match bufio.Read b need with
    | (None, b') => (Err (read_error (rd b)), b')
    | (Some p, b') => io.ReadFull_go fuel b' (need - len p) (got +:+ p)
    end.
Proof. destruct need; [lia|done]. Qed.

(** When the stream has the bytes, [ReadFull] hands out exactly the
    first [need] of them and leaves the reader at the next one. *)
Lemma ReadFull_go_enough (fuel : nat) (b : Reader) (need : nat) (got : string) :
  weight b < fuel → need ≤ len (contents b) →
  ∃ b', io.ReadFull_go fuel b need got = (Ok (got +:+ take_str need (contents b)), b')
        ∧ contents b' = drop_str need (contents b)
        ∧ net.size (rd b') ≤ net.size (rd b).
Proof.
  revert b need got. induction fuel as [|fuel IH]; intros b need got Hfuel Hneed; [lia|].
  destruct (decide (need = 0)) as [->|Hpos].
  { exists b. simpl. by rewrite app_nil_r_str. }
  rewrite ReadFull_go_S by lia.
  destruct (bufio.Read b need) as [[p|] b1] eqn:Hread.
  - apply bufio_Read_Some in Hread as (Hp & Hle & Hc & Hw & Hsz); [|lia].
    rewrite Hc, len_app in Hneed.
    destruct (IH b1 (need - len p) (got +:+ p)) as (b' & -> & Hb' & Hsz'); [lia..|].
    exists b'. rewrite Hc, take_app_ge, drop_app_ge, app_assoc_str by done.
    split_and!; [done|done|lia].
  - apply bufio_Read_None in Hread as [Hc _]. rewrite Hc in Hneed. simpl in Hneed. lia.
Qed.

(** When the stream ends or stalls before the bytes have come,
    [ReadFull] fails, with the end of the stream as its error in the one
    case and the deadline in the other. *)
Lemma ReadFull_go_short (fuel : nat) (b : Reader) (need : nat) (got : string) :
  weight b < fuel → len (contents b) < need →
  ∃ e b', io.ReadFull_go fuel b need got = (Err e, b')
          ∧ net.size (rd b') ≤ net.size (rd b)
          ∧ (no_deadline (rd b) → e = io_error)
          ∧ (Deadline ∈ rd b → e = deadline_exceeded).
Proof.
  revert b need got. induction fuel as [|fuel IH]; intros b need got Hfuel Hneed; [lia|].
  rewrite ReadFull_go_S by lia.
  destruct (bufio.Read b need) as [[p|] b1] eqn:Hread.
  - assert (no_deadline (rd b) → no_deadline (rd b1)) as Hnd
      by (intros ?; by eapply bufio_Read_no_deadline).
    pose proof (bufio_Read_Some_stall _ _ _ _ Hread) as Hst.
    apply bufio_Read_Some in Hread as (Hp & Hle & Hc & Hw & Hsz); [|lia].
    rewrite Hc, len_app in Hneed.
    destruct (IH b1 (need - len p) (got +:+ p)) as (e & b' & -> & Hsz' & Hend & Hstall);
      [lia..|].
    exists e, b'. split_and!; [done|lia|auto|auto].
  - destruct (bufio_Read_None_error _ _ _ Hread) as [Hend Hstall].
    apply bufio_Read_None in Hread as [_ Hsz]. by exists (read_error (rd b)), b1.
Qed.

Lemma ReadFull_go_fuel (fuel fuel' : nat) (b : Reader) (need : nat) (got : string) :
  weight b < fuel → weight b < fuel' →
  io.ReadFull_go fuel b need got = io.ReadFull_go fuel' b need got.
Proof.
  revert fuel' b need got.
  induction fuel as [|fuel IH]; intros fuel' b need got Hf Hf'; [lia|].
  destruct fuel' as [|fuel']; [lia|].
  destruct (decide (need = 0)) as [->|Hpos]; [done|].
  rewrite !ReadFull_go_S by lia.
  destruct (bufio.Read b need) as [[p|] b1] eqn:Hread; [|done].
  apply bufio_Read_Some in Hread as (_ & _ & _ & Hw & _); [|lia].
  apply IH; lia.
Qed.

Lemma ReadFull_enough (b : Reader) (need : nat) :
  need ≤ len (contents b) →
  ∃ b', io.ReadFull b need = (Ok (take_str need (contents b)), b')
        ∧ contents b' = drop_str need (contents b)
        ∧ net.size (rd b') ≤ net.size (rd b).
Proof.
  intros Hneed. unfold io.ReadFull.
  destruct (ReadFull_go_enough (len (buffered b) + net.size (rd b) + 1) b need "")
    as (b' & Hgo & Hb'); [unfold weight; lia|done|].
  exists b'. by rewrite Hgo.
Qed.

Lemma ReadFull_short (b : Reader) (need : nat) :
  len (contents b) < need →
  ∃ e b', io.ReadFull b need = (Err e, b')
          ∧ net.size (rd b') ≤ net.size (rd b)
          ∧ (no_deadline (rd b) → e = io_error)
          ∧ (Deadline ∈ rd b → e = deadline_exceeded).
Proof.
  intros Hneed. unfold io.ReadFull.
  apply ReadFull_go_short; [unfold weight; lia|done].
Qed.

Lemma ReadFull_shrink (b b' : Reader) (need : nat) (res : result string) :
  io.ReadFull b need = (res, b') → net.size (rd b') ≤ net.size (rd b).
Proof.
  intros Hr. destruct (le_lt_dec need (len (contents b))) as [Hle|Hlt].
  - destruct (ReadFull_enough b need Hle) as (b1 & Hb1 & _ & Hsz). congruence.
  - destruct (ReadFull_short b need Hlt) as (e & b1 & Hb1 & Hsz & _). congruence.
Qed.


(** ** [make] *)

Lemma makeslice_Done (n : Z) :
  (0 ≤ n ≤ runtime.maxAlloc)%Z → runtime.makeslice n = Done (Z.to_nat n).
Proof.
  intros Hn. unfold runtime.makeslice.
  destruct (Z.ltb_spec n 0); [lia|]. destruct (Z.ltb_spec runtime.maxAlloc n); [lia|done].
Qed.

Lemma makeslice_Panic (n : Z) :
  (runtime.maxAlloc < n)%Z → runtime.makeslice n = Panic.
Proof.
  intros Hn. unfold runtime.makeslice.
  destruct (Z.ltb_spec runtime.maxAlloc n); [|lia]. by rewrite orb_true_r.
Qed.


(** ** The loop of [handleConnection] *)

Lemma handleFilePostRequest_shrink (s : Server) (fs fs' : FS) (filename : string)
    (headers : gmap string string) (reader reader' : Reader) (resp : string) :
  handleFilePostRequest s fs filename headers reader = Done (fs', resp, reader') →
  net.size (rd reader') ≤ net.size (rd reader).
Proof.
  unfold handleFilePostRequest.
  repeat (case_bool_decide || case_match); intros [= <- <- <-]; simplify_eq; try done;
    match goal with
    | H : io.ReadFull _ _ = _ |- _ => by apply ReadFull_shrink in H
    end.
Qed.

Section loop.
Context `{Gzip}.

Lemma dispatch_shrink (s : Server) (fs : FS) (method path : string)
    (headers : gmap string string) (reader : Reader) :
  net.size (rd (reader_after (dispatch s fs method path headers reader)))
    ≤ net.size (rd reader).
Proof.
  unfold dispatch.
  repeat (case_bool_decide || case_match); simpl; try done; try lia.
  by eapply handleFilePostRequest_shrink.
Qed.

(** The fuel of the loop is enough: more of it changes nothing. *)
Lemma handleConnection_go_fuel (fuel fuel' : nat) (s : Server) (fs : FS) (conn : Conn) :
  net.size conn < fuel → net.size conn < fuel' →
  handleConnection_go fuel s fs conn = handleConnection_go fuel' s fs conn.
Proof.
  revert fuel' fs conn. induction fuel as [|fuel IH]; intros fuel' fs conn Hf Hf'; [lia|].
  destruct fuel' as [|fuel']; [lia|]. simpl.
  destruct (readRequestAndGetMethodPathAndHeaders conn)
    as [[[[method path] headers] reader]|e] eqn:Hreq; [|done].
  apply readRequest_shrink in Hreq.
  pose proof (dispatch_shrink s fs method path headers reader) as Hd.
  destruct (_ || _ || _); [done|].
  rewrite (IH fuel') by lia. done.
Qed.

(** A pass that panics leaves no connection to read from. *)
Lemma dispatch_panicked (s : Server) (fs : FS) (method path : string)
    (headers : gmap string string) (reader : Reader) :
  panicked (dispatch s fs method path headers reader) = true →
  rd (reader_after (dispatch s fs method path headers reader)) = [].
Proof.
  unfold dispatch. repeat (case_bool_decide || case_match); simpl; done.
Qed.

(** The loop, without its fuel: a pass that fails to read a request ends
    it with nothing written; a pass that serves a request ends it when
    the pass returned or the client asked to close, and otherwise goes on
    with a new reader over the connection.  A pass that panics ends it
    too, which the equation covers: nothing is left to read after it. *)
Lemma handleConnection_eq (s : Server) (fs : FS) (conn : Conn) :
  handleConnection s fs conn =
    match readRequestAndGetMethodPathAndHeaders conn with
    | Err _ => (fs, [])
    | Ok (method, path, headers, reader) =>
      let out := dispatch s fs method path headers reader in
      if returned out || shouldClose headers then (store out, [written out])
      else
        let '(fs', resps) :=
          handleConnection s (store out) (rd (reader_after out)) in
        (fs', written out :: resps)
    end.
Proof.
  unfold handleConnection. rewrite Nat.add_1_r. simpl.
  destruct (readRequestAndGetMethodPathAndHeaders conn)
    as [[[[method path] headers] reader]|e] eqn:Hreq; [|done].
  apply readRequest_shrink in Hreq.
  pose proof (dispatch_shrink s fs method path headers reader) as Hd.
  destruct (panicked (dispatch s fs method path headers reader)) eqn:Hpanic; simpl.
  - apply dispatch_panicked in Hpanic. rewrite Hpanic. by destruct (_ || _).
  - destruct (_ || _); [done|].
    rewrite (handleConnection_go_fuel (net.size conn)
               (net.size (rd (reader_after (dispatch s fs method path headers reader))) + 1))
      by lia.
    done.
Qed.

Lemma handleConnection_Ok (s : Server) (fs : FS) (conn : Conn) (method path : string)
    (headers : gmap string string) (reader : Reader) :
  readRequestAndGetMethodPathAndHeaders conn = Ok (method, path, headers, reader) →
  handleConnection s fs conn =
    if returned (dispatch s fs method path headers reader) || shouldClose headers
    then (store (dispatch s fs method path headers reader),
          [written (dispatch s fs method path headers reader)])
    else
      let '(fs', resps) :=
        handleConnection s (store (dispatch s fs method path headers reader))
          (rd (reader_after (dispatch s fs method path headers reader))) in
      (fs', written (dispatch s fs method path headers reader) :: resps).
Proof. intros Hreq. by rewrite handleConnection_eq, Hreq. Qed.

Lemma handleConnection_Err (s : Server) (fs : FS) (conn : Conn) (e : error) :
  readRequestAndGetMethodPathAndHeaders conn = Err e →
  handleConnection s fs conn = (fs, []).
Proof. intros Hreq. by rewrite handleConnection_eq, Hreq. Qed.

End loop.

(** ** The comparison with ["close"] *)

Lemma lower_same_letter (a : ascii) : same_letter a (strings.lower a).
Proof.
  destruct a as [[] [] [] [] [] [] [] []];
    apply (bool_decide_unpack _); vm_compute; reflexivity.
Qed.

Lemma same_letter_lower (a b : ascii) :
  same_letter a b → ¬ is_upper b → strings.lower a = b.
Proof.
  unfold same_letter, is_upper, strings.lower.
  intros [->|[[Ha Hb]|[Hb _]]] Hnb; [|  |done].
  - destruct (Nat.leb_spec 65 (byte_val b)), (Nat.leb_spec (byte_val b) 90);
      simpl; try done. lia.
  - destruct (Nat.leb_spec 65 (byte_val a)), (Nat.leb_spec (byte_val a) 90);
      simpl; try lia.
    unfold byte_val in *. by rewrite <- Hb, ascii_nat_embedding.
Qed.

Lemma equal_fold_ToLower (s : string) : equal_fold s (strings.ToLower s).
Proof.
  induction s as [|a s IH]; simpl; constructor; [apply lower_same_letter|done].
Qed.

Lemma ToLower_equal_fold (s t : string) :
  equal_fold s t → lower_case t → strings.ToLower s = t.
Proof.
  induction 1 as [|a b s t Hab _ IH]; simpl; [done|].
  intros [Hb Ht]. by rewrite (same_letter_lower a b), IH.
Qed.

Lemma lower_case_close : lower_case "close".
Proof. simpl. unfold is_upper. vm_compute. repeat split; lia. Qed.

(** The loop closes exactly when the value it finds under [Connection]
    is the word close in whatever letter case. *)
Lemma shouldClose_spec (headers : gmap string string) :
  shouldClose headers = true ↔ equal_fold (header headers "Connection") "close".
Proof.
  unfold shouldClose. rewrite bool_decide_eq_true. split.
  - intros <-. apply equal_fold_ToLower.
  - intros Hf. apply ToLower_equal_fold; [done|apply lower_case_close].
Qed.

(** ** The routes *)

Section routes.
Context `{Gzip}.

Lemma echo_path_not_root (str : string) : "/echo/" +:+ str ≠ "/".
Proof. intros Heq. apply (f_equal len) in Heq. rewrite len_app in Heq. simpl in Heq. lia. Qed.

Lemma dispatch_echo (s : Server) (fs : FS) (method str : string)
    (headers : gmap string string) (reader : Reader) :
  dispatch s fs method ("/echo/" +:+ str) headers reader =
    {| store := fs; written := (echo str headers).1; reader_after := reader;
       returned := (echo str headers).2; panicked := false |}.
Proof.
  unfold dispatch.
  rewrite bool_decide_eq_false_2 by apply echo_path_not_root.
  rewrite HasPrefix_app, TrimPrefix_app. by destruct (echo str headers).
Qed.

Lemma echo_never_returns (str : string) (headers : gmap string string) :
  gzip_never_fails → (echo str headers).2 = false.
Proof.
  intros Hg. unfold echo. destruct (strings.Contains _ _); [|done].
  destruct (Hg str) as (w & z & -> & ->). done.
Qed.

(** With a compressor that reports no error, no pass of the loop leaves
    the function by a [return] of its own. *)
Lemma dispatch_never_returns (s : Server) (fs : FS) (method path : string)
    (headers : gmap string string) (reader : Reader) :
  gzip_never_fails → returned (dispatch s fs method path headers reader) = false.
Proof.
  intros Hg. unfold dispatch. case_bool_decide; [done|].
  destruct (strings.HasPrefix path "/echo/").
  { pose proof (echo_never_returns (strings.TrimPrefix path "/echo/") headers Hg).
    by destruct (echo _ _). }
  repeat (case_bool_decide || case_match); done.
Qed.

End routes.

(** ** [handleFilePostRequest] on a declared length *)

(** A declared length beyond what the runtime allocates: the call
    panics before it reads or writes anything. *)
Lemma handleFilePostRequest_panic (s : Server) (fs : FS) (filename : string)
    (headers : gmap string string) (reader : Reader) (v : string) (n : Z) :
  directory s ≠ "" →
  headers !! "Content-Length" = Some v → strconv.Atoi v = Some n →
  (runtime.maxAlloc < n)%Z →
  handleFilePostRequest s fs filename headers reader = Panic.
Proof.
  intros Hdir Hv Hn Hbig. unfold handleFilePostRequest.
  rewrite bool_decide_eq_false_2, Hv, Hn by done.
  destruct (Z.ltb_spec n 0); [unfold runtime.maxAlloc in Hbig; lia|].
  by rewrite makeslice_Panic.
Qed.


(** A declared body that arrives in full: it is taken from the reader
    and goes to the file, unless the file system refuses. *)
Lemma handleFilePostRequest_full (s : Server) (fs : FS) (filename : string)
    (headers : gmap string string) (reader : Reader) (v : string) (n : Z) :
  directory s ≠ "" →
  headers !! "Content-Length" = Some v → strconv.Atoi v = Some n →
  (0 ≤ n ≤ runtime.maxAlloc)%Z →
  Z.to_nat n ≤ len (contents reader) →
  ∃ reader',
    contents reader' = drop_str (Z.to_nat n) (contents reader)
    ∧ handleFilePostRequest s fs filename headers reader =
        (let filePath := filepath.Join [directory s; filename] in
         let body := take_str (Z.to_nat n) (contents reader) in
         if refused fs OpCreate filePath then Done (fs, resp_500, reader')
         else if refused fs OpWrite filePath
              then Done (os.put fs filePath "", resp_500, reader')
              else Done (os.put fs filePath body, resp_201, reader')).
Proof.
  intros Hdir Hv Hn Hpos Hfull. unfold handleFilePostRequest.
  rewrite bool_decide_eq_false_2, Hv, Hn by done.
  destruct (Z.ltb_spec n 0); [lia|]. rewrite makeslice_Done by done.
  destruct (ReadFull_enough reader _ Hfull) as (r' & -> & Hr' & _).
  exists r'. split; [done|].
  unfold os.Create, os.Write, os.put. simpl.
  destruct (refused fs OpCreate _); [done|]. simpl.
  destruct (refused fs OpWrite _); [done|].
  by rewrite insert_insert_eq.
Qed.

(** ** The header map of a block *)

Lemma parse_header_line_lookup (line : string) (headers : gmap string string)
    (name : string) :
  parse_header_line line headers !! name =
    match header_field line with
    | Some (n, v) => if bool_decide (n = name) then Some v else headers !! name
    | None => headers !! name
    end.
Proof.
  unfold parse_header_line. destruct (header_field line) as [[n v]|]; [|done].
  case_bool_decide as Hn.
  - subst n. apply lookup_insert_eq.
  - by apply lookup_insert_ne.
Qed.

(** Each line of the block overwrites what the lines before it stored
    under its name. *)
Lemma foldl_parse_lookup (lines : list string) (headers : gmap string string)
    (name : string) :
  foldl (λ h l, parse_header_line (l +:+ CRLF) h) headers lines !! name =
    match last_value name lines with
    | Some v => Some v
    | None => headers !! name
    end.
Proof.
  revert headers. induction lines as [|l lines IH]; intros headers; [done|].
  simpl. rewrite IH. destruct (last_value name lines); [done|].
  rewrite parse_header_line_lookup.
  destruct (header_field _) as [[n v]|]; [|done]. by case_bool_decide.
Qed.

Lemma headers_of_lookup (lines : list string) (name : string) :
  headers_of lines !! name = last_value name lines.
Proof.
  unfold headers_of. rewrite foldl_parse_lookup.
  by destruct (last_value name lines).
Qed.

(** * The claims *)

(** C1, as stated, fails: on a connection whose first line is the
    two-field request line [GET /], the server writes nothing at all, so
    no 400 response, and closes. *)
Lemma C1_counterexample :
  let conn := [Data ("GET /" +:+ CRLF +:+ CRLF)] in
  (∃ r, bufio.ReadString (bufio.NewReader conn) LF = Ok ("GET /" +:+ CRLF, r))
  ∧ malformed_request_line ("GET /" +:+ CRLF)
  ∧ @handleConnection stored_gzip data_server empty_fs conn = (empty_fs, [])
  ∧ ¬ ∃ fs resp resps,
        @handleConnection stored_gzip data_server empty_fs conn = (fs, resp :: resps).
Proof.
  split_and!.
  - eexists. vm_compute. reflexivity.
  - left. vm_compute. lia.
  - vm_compute. reflexivity.
  - intros (fs & resp & resps & Heq). vm_compute in Heq. discriminate Heq.
Qed.

(** C1, amended: when the first line read on a connection is a malformed
    request line (a field count other than 3, or a third field that does
    not begin with [HTTP/]), reading the request fails with a parse
    error, and the server writes no response, changes no file and closes
    the connection without reading any further request. *)
Theorem C1_malformed_request_line_closes_silently `{Gzip} (s : Server) (fs : FS)
    (conn : Conn) (line : string) (r : Reader) :
  bufio.ReadString (bufio.NewReader conn) LF = Ok (line, r) →
  malformed_request_line line →
  (readRequestAndGetMethodPathAndHeaders conn = Err bad_request_line
   ∨ readRequestAndGetMethodPathAndHeaders conn = Err not_http)
  ∧ handleConnection s fs conn = (fs, []).
Proof.
  intros Hread Hbad.
  assert (readRequestAndGetMethodPathAndHeaders conn = Err bad_request_line
          ∨ readRequestAndGetMethodPathAndHeaders conn = Err not_http) as Herr.
  { unfold readRequestAndGetMethodPathAndHeaders. rewrite Hread.
    destruct Hbad as [Hlen|(m & p & v & -> & ->)]; [|by right].
    left. destruct (strings.Fields _) as [|? [|? [|? [|]]]]; done. }
  split; [done|]. rewrite handleConnection_eq. by destruct Herr as [-> | ->].
Qed.

Lemma C1_witness :
  @handleConnection stored_gzip data_server empty_fs
    [Data ("GET / FTP/1.1" +:+ CRLF +:+ CRLF);
     Data ("GET / HTTP/1.1" +:+ CRLF +:+ CRLF)] = (empty_fs, []).
Proof.
  refine (proj2 (@C1_malformed_request_line_closes_silently stored_gzip data_server
                   empty_fs _ ("GET / FTP/1.1" +:+ CRLF)
                   {| rd := [Data ("GET / HTTP/1.1" +:+ CRLF +:+ CRLF)];
                      buffered := CRLF |} _ _)).
  - vm_compute. reflexivity.
  - right. exists "GET", "/", "FTP/1.1". split; vm_compute; reflexivity.
Defined.

(** C2: after a request that was parsed and answered, the loop closes
    the connection if and only if the value of the request's [Connection]
    header is the word close in whatever letter case; otherwise it reads
    the next request on the same connection, so that two well-formed
    requests in sequence, the first without [Connection: close], are both
    answered, and nothing is read after a request that carries it.  The
    compressor is taken not to report errors. *)
Theorem C2_connection_header_decides `{Gzip} (s : Server) (fs : FS) (conn : Conn)
    (method path : string) (headers : gmap string string) (reader : Reader) :
  gzip_never_fails →
  readRequestAndGetMethodPathAndHeaders conn = Ok (method, path, headers, reader) →
  let out := dispatch s fs method path headers reader in
  (shouldClose headers = true ↔ equal_fold (header headers "Connection") "close")
  ∧ (equal_fold (header headers "Connection") "close" →
     handleConnection s fs conn = (store out, [written out]))
  ∧ (¬ equal_fold (header headers "Connection") "close" →
     handleConnection s fs conn =
       (let '(fs', resps) := handleConnection s (store out) (rd (reader_after out)) in
        (fs', written out :: resps))
     ∧ ∀ method2 path2 headers2 reader2,
         readRequestAndGetMethodPathAndHeaders (rd (reader_after out))
           = Ok (method2, path2, headers2, reader2) →
         ∃ fs' resps,
           handleConnection s fs conn =
             (fs', written out
                   :: written (dispatch s (store out) method2 path2 headers2 reader2)
                   :: resps)).
Proof.
  intros Hg Hreq out. split; [apply shouldClose_spec|].
  pose proof (dispatch_never_returns s fs method path headers reader Hg) as Hret.
  pose proof (handleConnection_Ok s fs conn _ _ _ _ Hreq) as Hgo.
  fold out in Hret, Hgo. rewrite Hret in Hgo. simpl in Hgo.
  split.
  - intros Hclose%shouldClose_spec. by rewrite Hclose in Hgo.
  - intros Hopen.
    assert (shouldClose headers = false) as Hsc.
    { destruct (shouldClose headers) eqn:Hsc; [|done].
      by apply shouldClose_spec in Hsc. }
    rewrite Hsc in Hgo. split; [done|].
    intros method2 path2 headers2 reader2 Hreq2.
    rewrite Hgo, (handleConnection_Ok s (store out) _ _ _ _ _ Hreq2).
    destruct (_ || _); [simpl; by eexists _, _|].
    destruct (handleConnection s (store (dispatch _ _ _ _ _ _)) _) as [fs' resps].
    simpl. by eexists _, _.
Qed.

Lemma C2_witness :
  let first := request "GET / HTTP/1.1" ["Host: localhost"] "" in
  let second := request "GET /echo/abc HTTP/1.1" ["Connection: Close"] "" in
  let third := request "GET /user-agent HTTP/1.1" ["User-Agent: curl"] "" in
  @handleConnection stored_gzip data_server empty_fs [Data first; Data second; Data third]
    = (empty_fs, [resp_root; resp_text "abc"]).
Proof.
  intros first second third.
  assert (@gzip_never_fails stored_gzip) as Hg by (intros str; by eexists _, _).
  destruct (@C2_connection_header_decides stored_gzip data_server empty_fs
              [Data first; Data second; Data third]
              "GET" "/" {["Host" := "localhost"]}
              {| rd := [Data second; Data third]; buffered := "" |} Hg)
    as (_ & _ & Hopen); [vm_compute; reflexivity|].
  destruct Hopen as [Hnext _].
  { intros Hf. inversion Hf. }
  rewrite Hnext.
  destruct (@C2_connection_header_decides stored_gzip data_server empty_fs
              [Data second; Data third]
              "GET" "/echo/abc" {["Connection" := "Close"]}
              {| rd := [Data third]; buffered := "" |} Hg)
    as (_ & Hclose & _); [vm_compute; reflexivity|].
  unfold dispatch at 1 2. simpl. unfold dispatch in Hclose. simpl in Hclose.
  rewrite Hclose; [reflexivity|].
  apply shouldClose_spec. vm_compute. reflexivity.
Defined.

(** C3: for every string [str], a request for the path [/echo/str] that
    was parsed and whose [Accept-Encoding] value, if any, does not contain
    [gzip] is answered with status 200, the content type [text/plain], a
    [Content-Length] that is the length of [str] in decimal, and a body
    that is [str] byte for byte. *)
Theorem C3_echo_plain `{Gzip} (s : Server) (fs : FS) (conn : Conn)
    (method str : string) (headers : gmap string string) (reader : Reader) :
  readRequestAndGetMethodPathAndHeaders conn
    = Ok (method, "/echo/" +:+ str, headers, reader) →
  strings.Contains (header headers "Accept-Encoding") "gzip" = false →
  ∃ fs' resps,
    handleConnection s fs conn =
      (fs', ("HTTP/1.1 200 OK" +:+ CRLF
             +:+ "Content-Type: text/plain" +:+ CRLF
             +:+ "Content-Length: " +:+ fmt.d (len str) +:+ CRLF
             +:+ CRLF +:+ str) :: resps).
Proof.
  intros Hreq Hplain. rewrite (handleConnection_Ok s fs conn _ _ _ _ Hreq).
  rewrite dispatch_echo. unfold echo. rewrite Hplain. simpl.
  destruct (shouldClose headers); [by eexists _, _|].
  destruct (handleConnection s fs (rd reader)) as [fs' resps]. by eexists _, _.
Qed.

Lemma C3_witness :
  ∃ fs' resps,
    @handleConnection stored_gzip data_server empty_fs
      [Data (request "GET /echo/pineapple HTTP/1.1" ["Accept-Encoding: br, deflate"] "")]
    = (fs', ("HTTP/1.1 200 OK" +:+ CRLF
             +:+ "Content-Type: text/plain" +:+ CRLF
             +:+ "Content-Length: 9" +:+ CRLF
             +:+ CRLF +:+ "pineapple") :: resps).
Proof.
  apply (@C3_echo_plain stored_gzip data_server empty_fs _ "GET" "pineapple"
           {["Accept-Encoding" := "br, deflate"]} {| rd := []; buffered := "" |}).
  - vm_compute. reflexivity.
  - vm_compute. reflexivity.
Defined.






(** C6 fails on the code: on a server with a base directory, a POST to
    [/files/notes] that declares the [Content-Length]
    9223372036854775807, the largest [int], and sends the five bytes
    [hello] before it closes the stream is not answered with 400.  The
    request is parsed, the length is accepted as a number that is not
    negative, and the call panics where it makes the buffer for the body,
    before it reads a byte of it: nothing reaches the connection, the file
    store is as it was, and the panic ends the function and the
    process. *)
Theorem C6_huge_length_panics :
  let length := "9223372036854775807" in
  let headers : gmap string string := {["Content-Length" := length]} in
  let reader := {| rd := []; buffered := "hello" |} in
  let conn :=
    [Data (request "POST /files/notes HTTP/1.1" ["Content-Length: " +:+ length] "hello")] in
  directory data_server ≠ ""
  ∧ readRequestAndGetMethodPathAndHeaders conn
      = Ok ("POST", "/files/notes", headers, reader)
  ∧ strconv.Atoi length = Some strconv.maxInt
  ∧ (Z.of_nat (len (contents reader)) < strconv.maxInt)%Z
  ∧ handleFilePostRequest data_server empty_fs "notes" headers reader = Panic
  ∧ panicked (@dispatch stored_gzip data_server empty_fs "POST" "/files/notes"
                headers reader) = true
  ∧ @handleConnection stored_gzip data_server empty_fs conn = (empty_fs, [""]).
Proof. split_and!; [done|vm_compute; reflexivity..]. Qed.

(** C7, as stated, fails: a request with [connection: close] does not
    close the connection as one with [Connection: close] does: after the
    first the server goes on to answer the next request, after the second
    it does not. *)
Lemma C7_counterexample :
  let next := request "GET /echo/next HTTP/1.1" [] "" in
  @handleConnection stored_gzip data_server empty_fs
    [Data (request "GET / HTTP/1.1" ["connection: close"] ""); Data next]
    = (empty_fs, [resp_root; resp_text "next"])
  ∧ @handleConnection stored_gzip data_server empty_fs
      [Data (request "GET / HTTP/1.1" ["Connection: close"] ""); Data next]
    = (empty_fs, [resp_root]).
Proof. split; vm_compute; reflexivity. Qed.

(** C7, amended: header names are looked up byte for byte.  The values
    used for the [Connection], [Content-Length], [Accept-Encoding] and
    [User-Agent] decisions are those stored under exactly these spellings;
    a header line under any other name, one that differs from them in
    letter case only included, changes neither the decision to close nor
    the response, the file store and the reader of the pass. *)
Theorem C7_header_names_exact `{Gzip} (s : Server) (fs : FS) (method path : string)
    (headers : gmap string string) (reader : Reader) (name value : string) :
  name ∉ recognized →
  shouldClose (<[name := value]> headers) = shouldClose headers
  ∧ dispatch s fs method path (<[name := value]> headers) reader
    = dispatch s fs method path headers reader.
Proof.
  intros Hname.
  assert (∀ k, k ∈ recognized → <[name := value]> headers !! k = headers !! k) as Hk.
  { intros k Hin. apply lookup_insert_ne. by intros ->. }
  assert (∀ k, k ∈ recognized →
            header (<[name := value]> headers) k = header headers k) as Hh.
  { intros k Hin. unfold header. by rewrite Hk. }
  split.
  - unfold shouldClose. rewrite Hh; [done|]. unfold recognized. set_solver.
  - unfold dispatch, echo, handleFilePostRequest.
    rewrite !Hh, Hk; [done|unfold recognized; set_solver..].
Qed.

Lemma C7_witness :
  shouldClose (<["connection" := "close"]> ∅) = shouldClose ∅
  ∧ @dispatch stored_gzip data_server empty_fs "GET" "/" (<["connection" := "close"]> ∅)
      {| rd := []; buffered := "" |}
    = @dispatch stored_gzip data_server empty_fs "GET" "/" ∅
        {| rd := []; buffered := "" |}.
Proof.
  apply (@C7_header_names_exact stored_gzip).
  unfold recognized. intros Hin. repeat (apply elem_of_cons in Hin as [Hin|Hin]; [discriminate Hin|]).
  by apply elem_of_nil in Hin.
Defined.

(** C8, as stated, fails: of two header lines with the name [X-Id], the
    parsed header map holds the value of the second, not of the first. *)
Lemma C8_counterexample :
  let lines := ["X-Id: first"; "Host: localhost"; "X-Id: second"] in
  ∃ reader,
    readRequestAndGetMethodPathAndHeaders [Data (request "GET / HTTP/1.1" lines "")]
      = Ok ("GET", "/", headers_of lines, reader)
  ∧ first_value "X-Id" lines = Some "first"
  ∧ headers_of lines !! "X-Id" = Some "second"
  ∧ headers_of lines !! "X-Id" ≠ first_value "X-Id" lines.
Proof.
  eexists. split_and!; [vm_compute; reflexivity..|].
  vm_compute. discriminate.
Qed.

(** C8, amended: when a request has two or more header lines with the
    same name, the value the parsed header map holds under that name is
    the value of the last such line: for every request on the wire,
    in whatever segments it arrives, and every header name, the map holds
    what the last line that carries the name says, and nothing when no
    line carries it. *)
Theorem C8_last_header_line_wins (conn : Conn) (reqLine : string)
    (lines : list string) (rest method path version name : string) :
  net.pending conn = request reqLine lines rest →
  strings.IndexByte reqLine LF = None →
  Forall header_line lines →
  strings.Fields (strings.TrimRight reqLine CRLF) = [method; path; version] →
  strings.HasPrefix version "HTTP/" = true →
  ∃ headers reader,
    readRequestAndGetMethodPathAndHeaders conn = Ok (method, path, headers, reader)
    ∧ headers !! name = last_value name lines.
Proof.
  intros Hc Hlf Hlines Hfields Hver.
  destruct (readRequest_wire conn reqLine lines rest method path version)
    as (reader & Hreq & _); [done..|].
  exists (headers_of lines), reader. split; [done|apply headers_of_lookup].
Qed.

Lemma C8_witness :
  ∃ headers reader,
    readRequestAndGetMethodPathAndHeaders
      [Data "GET / HT"; Data ("TP/1.1" +:+ CRLF +:+ "X-Id: first" +:+ CRLF +:+ "X-I");
       Data ("d: second" +:+ CRLF +:+ CRLF)]
      = Ok ("GET", "/", headers, reader)
    ∧ headers !! "X-Id" = Some "second".
Proof.
  apply (C8_last_header_line_wins _ "GET / HTTP/1.1" ["X-Id: first"; "X-Id: second"]
           "" "GET" "/" "HTTP/1.1" "X-Id").
  - vm_compute. reflexivity.
  - reflexivity.
  - repeat constructor; vm_compute; congruence.
  - reflexivity.
  - reflexivity.
Defined.

(** C9: file paths are built from the captured file name without any
    check against path traversal: for the file name [../secret] and the
    base directory [/tmp/data], the joined path is [/tmp/secret], which
    lies outside the base directory, and both handlers work on that
    path: the file-read handler serves the regular file that is there and
    the file-write handler creates and writes it (for a body of a length
    that the runtime can allocate), neither rejecting the request. *)
Theorem C9_path_traversal :
  ∃ filename : string,
    strings.Contains filename ".." = true
    ∧ filepath.Join [directory data_server; filename] = "/tmp/secret"
    ∧ strings.HasPrefix "/tmp/secret" (directory data_server +:+ "/") = false
    ∧ (∀ fs data,
         files fs !! "/tmp/secret" = Some data →
         refused fs OpOpen "/tmp/secret" = false →
         refused fs OpStat "/tmp/secret" = false →
         handleFileGetRequest data_server fs filename
           = resp_file_header (len data) +:+ data)
    ∧ (∀ fs headers reader v n,
         headers !! "Content-Length" = Some v → strconv.Atoi v = Some n →
         (0 ≤ n ≤ runtime.maxAlloc)%Z → Z.to_nat n ≤ len (contents reader) →
         refused fs OpCreate "/tmp/secret" = false →
         refused fs OpWrite "/tmp/secret" = false →
         ∃ reader',
           handleFilePostRequest data_server fs filename headers reader
             = Done (os.put fs "/tmp/secret" (take_str (Z.to_nat n) (contents reader)),
                     resp_201, reader'))
    ∧ @handleConnection stored_gzip data_server empty_fs
        [Data (request ("POST /files/" +:+ filename +:+ " HTTP/1.1")
                 ["Content-Length: 5"; "Connection: close"] "hello")]
      = (os.put empty_fs "/tmp/secret" "hello", [resp_201])
    ∧ (∀ body,
         @handleConnection stored_gzip data_server (os.put empty_fs "/tmp/secret" body)
           [Data (request ("GET /files/" +:+ filename +:+ " HTTP/1.1") [] "")]
         = (os.put empty_fs "/tmp/secret" body,
            [resp_file_header (len body) +:+ body])).
Proof.
  exists "../secret".
  assert (filepath.Join [directory data_server; "../secret"] = "/tmp/secret") as Hjoin
    by reflexivity.
  split_and!; [reflexivity..| | | |].
  - intros fs data Hfile Hopen Hstat. unfold handleFileGetRequest.
    rewrite Hjoin. unfold os.Open, os.Stat. rewrite Hopen, Hfile, Hstat. done.
  - intros fs headers reader v n Hv Hn Hpos Hfull Hcreate Hwrite.
    destruct (handleFilePostRequest_full data_server fs "../secret" headers reader v n)
      as (reader' & _ & Hres); [done..|].
    cbv zeta in Hres. rewrite Hjoin, Hcreate, Hwrite in Hres. by exists reader'.
  - vm_compute. reflexivity.
  - intros body.
    rewrite (handleConnection_Ok data_server _ _ "GET" "/files/../secret" ∅
               {| rd := []; buffered := "" |}) by (vm_compute; reflexivity).
    assert (dispatch data_server (os.put empty_fs "/tmp/secret" body) "GET"
              "/files/../secret" ∅ {| rd := []; buffered := "" |}
            = {| store := os.put empty_fs "/tmp/secret" body;
                 written := resp_file_header (len body) +:+ body;
                 reader_after := {| rd := []; buffered := "" |};
                 returned := false; panicked := false |}) as ->.
    { unfold dispatch. simpl. unfold handleFileGetRequest. simpl.
      change (filepath.Join _) with "/tmp/secret".
      unfold os.Open, os.Stat. simpl. by rewrite lookup_insert_eq. }
    simpl. rewrite handleConnection_Err with (e := io_error); done.
Qed.

(** C10, as stated, fails.  A request to [/] that declares and carries a
    body of five bytes is followed by a request to [/user-agent].  When
    the body arrives in the segment of its header block, the reader of
    the first pass has buffered it and it is dropped with that reader: the
    second request is parsed and answered.  When the body arrives in a
    segment of its own, it becomes the start of the next request line,
    which still has three fields and a version: the second pass parses
    it, with the method [helloGET], and answers it.  In neither case does
    the next pass fail to parse or the connection close silently. *)
Lemma C10_counterexample :
  let first := request "GET / HTTP/1.1" ["Content-Length: 5"] in
  let second := request "GET /user-agent HTTP/1.1" ["User-Agent: curl"] "" in
  @handleConnection stored_gzip data_server empty_fs
    [Data (first "hello"); Data second]
    = (empty_fs, [resp_root; resp_text "curl"])
  ∧ @handleConnection stored_gzip data_server empty_fs
      [Data (first ""); Data "hello"; Data second]
    = (empty_fs, [resp_root; resp_text "curl"])
  ∧ (∃ headers reader,
       readRequestAndGetMethodPathAndHeaders [Data "hello"; Data second]
         = Ok ("helloGET", "/user-agent", headers, reader)).
Proof. split_and!; [vm_compute; reflexivity..|]. eexists _, _. vm_compute. reflexivity. Qed.

(** C10, amended: for every request that is routed to a handler other
    than the file-write handler, the handler reads nothing from the
    request's reader and leaves the file store as it was, so a declared
    body is not consumed by it.  The next pass of the loop makes a new
    reader over the connection: what the reader of this pass had already
    buffered, body bytes included, is dropped, and the next request is
    read from the bytes still unread on the connection, the body bytes
    among them first. *)
Theorem C10_body_left_unread `{Gzip} (s : Server) (fs : FS) (conn : Conn)
    (method path : string) (headers : gmap string string) (reader : Reader) :
  readRequestAndGetMethodPathAndHeaders conn = Ok (method, path, headers, reader) →
  ¬ file_write_route method path →
  let out := dispatch s fs method path headers reader in
  reader_after out = reader
  ∧ store out = fs
  ∧ (returned out || shouldClose headers = false →
     handleConnection s fs conn =
       (let '(fs', resps) := handleConnection s fs (rd reader) in
        (fs', written out :: resps))
     ∧ contents (bufio.NewReader (rd reader)) = net.pending (rd reader)
     ∧ contents reader = buffered reader +:+ net.pending (rd reader)).
Proof.
  intros Hreq Hroute out.
  assert (reader_after out = reader ∧ store out = fs) as [Hr Hs].
  { subst out. unfold dispatch.
    case_bool_decide as Hroot; [done|].
    destruct (strings.HasPrefix path "/echo/") eqn:Hecho; [by destruct (echo _ _)|].
    case_bool_decide as Hua; [done|].
    destruct (strings.HasPrefix path "/files/") eqn:Hfiles; [|done].
    case_bool_decide as Hget; [done|].
    case_bool_decide as Hpost; [|done].
    destruct Hroute. by split_and!. }
  split_and!; [done..|].
  intros Hgo. split_and!; [|done..].
  rewrite (handleConnection_Ok s fs conn _ _ _ _ Hreq). fold out.
  by rewrite Hgo, Hr, Hs.
Qed.

Lemma C10_witness :
  @handleConnection stored_gzip data_server empty_fs
    [Data (request "GET / HTTP/1.1" ["Content-Length: 5"] "hello");
     Data (request "GET /user-agent HTTP/1.1" ["User-Agent: curl"] "")]
  = (let '(fs', resps) :=
       @handleConnection stored_gzip data_server empty_fs
         [Data (request "GET /user-agent HTTP/1.1" ["User-Agent: curl"] "")] in
     (fs', resp_root :: resps)).
Proof.
  destruct (@C10_body_left_unread stored_gzip data_server empty_fs
              [Data (request "GET / HTTP/1.1" ["Content-Length: 5"] "hello");
               Data (request "GET /user-agent HTTP/1.1" ["User-Agent: curl"] "")]
              "GET" "/" {["Content-Length" := "5"]}
              {| rd := [Data (request "GET /user-agent HTTP/1.1" ["User-Agent: curl"] "")];
                 buffered := "hello" |})
    as (_ & _ & Hnext).
  - vm_compute. reflexivity.
  - intros (Hroot & _). by apply Hroot.
  - destruct Hnext as (Hgo & _); [reflexivity|]. exact Hgo.
Defined.

(** * Further properties of the program *)

(** ** [main]: the base directory *)

(** X1: the base directory is the argument that follows the first
    [--directory] on the command line. *)
Theorem X1_directory_first_flag (before : list string) (dir : string)
    (after : list string) :
  "--directory" ∉ before →
  main_directory (before ++ "--directory" :: dir :: after) = dir.
Proof.
  induction before as [|arg before IH]; intros Hnot; simpl; [done|].
  apply not_elem_of_cons in Hnot as [Hne Hnot].
  rewrite bool_decide_eq_false_2 by done. rewrite IH by done.
  by destruct before.
Qed.

Lemma X1_witness :
  main_directory ["server"; "-v"; "--directory"; "/srv/a"; "--directory"; "/srv/b"]
    = "/srv/a".
Proof.
  apply (X1_directory_first_flag ["server"; "-v"] "/srv/a" ["--directory"; "/srv/b"]).
  intros Hin. repeat (apply elem_of_cons in Hin as [Hin|Hin]; [discriminate Hin|]).
  by apply elem_of_nil in Hin.
Defined.

(** X2: when [--directory] is not on the command line, or only as its
    last argument, the base directory is empty. *)
Theorem X2_directory_absent (args : list string) :
  (∀ before dir after, args ≠ before ++ "--directory" :: dir :: after) →
  main_directory args = "".
Proof.
  induction args as [|arg args IH]; intros Hno; [done|]. simpl.
  destruct args as [|next rest]; [done|].
  case_bool_decide as Harg.
  - subst arg. by destruct (Hno [] next rest).
  - apply IH. intros before dir after Heq.
    apply (Hno (arg :: before) dir after). by rewrite Heq.
Qed.

Lemma X2_witness : main_directory ["server"; "--port"; "4221"; "--directory"] = "".
Proof.
  apply X2_directory_absent. intros before dir after Heq.
  destruct before as [|? [|? [|? [|? [|? ?]]]]]; discriminate Heq.
Defined.

(** ** A body that does not arrive *)

Section short_body.
Context `{Gzip}.

Lemma dispatch_files_post (s : Server) (fs : FS) (f : string)
    (headers : gmap string string) (reader : Reader) :
  dispatch s fs "POST" ("/files/" +:+ f) headers reader =
    match handleFilePostRequest s fs f headers reader with
    | Done (fs', resp, reader') =>
      {| store := fs'; written := resp; reader_after := reader'; returned := false;
         panicked := false |}
    | Panic =>
      {| store := fs; written := ""; reader_after := bufio.NewReader [];
         returned := false; panicked := true |}
    end.
Proof.
  unfold dispatch.
  rewrite bool_decide_eq_false_2
    by (intros Heq; apply (f_equal len) in Heq; rewrite len_app in Heq;
        simpl in Heq; lia).
  replace (strings.HasPrefix ("/files/" +:+ f) "/echo/") with false
    by (by destruct f).
  rewrite bool_decide_eq_false_2
    by (intros Heq; apply (f_equal (take_str 2)) in Heq; by destruct f).
  by rewrite HasPrefix_app, TrimPrefix_app.
Qed.


End short_body.


(** ** The files that were written *)





Section files_route.
Context `{Gzip}.




End files_route.


(** ** Invariants of the loop *)


Lemma string_of_uint_not_empty (u : Decimal.uint) : NilZero.string_of_uint u ≠ "".
Proof. by destruct u. Qed.









Lemma put_put (fs : FS) (name data data' : string) :
  os.put (os.put fs name data) name data' = os.put fs name data'.
Proof. unfold os.put. simpl. by rewrite insert_insert_eq. Qed.

Ltac in_statuses :=
  unfold statuses; repeat (apply elem_of_cons; first [by left|right]).

(** What a call of the file-write handler that returns has done: the
    store is as it was or has the file at the joined path written, and
    what reached the connection is nothing or a status line alone. *)
Lemma post_Done_cases (s : Server) (fs fs' : FS) (filename : string)
    (headers : gmap string string) (reader reader' : Reader) (resp : string) :
  handleFilePostRequest s fs filename headers reader = Done (fs', resp, reader') →
  (fs' = fs
   ∨ directory s ≠ ""
     ∧ ∃ data, fs' = os.put fs (filepath.Join [directory s; filename]) data)
  ∧ (resp = ""
     ∨ ∃ status, status ∈ statuses ∧ resp = "HTTP/1.1 " +:+ status +:+ CRLF +:+ CRLF).
Proof.
  unfold handleFilePostRequest, os.Create, os.Write.
  set (filePath := filepath.Join [directory s; filename]).
  case_bool_decide as Hdir.
  { intros [= <- <- <-]. split; [by left|]. right. exists "404 Not Found". split; [in_statuses|done]. }
  assert (∃ status, status ∈ statuses
                    ∧ resp_400 = "HTTP/1.1 " +:+ status +:+ CRLF +:+ CRLF) as H400
    by (exists "400 Bad Request"; split; [in_statuses|done]).
  assert (∃ status, status ∈ statuses
                    ∧ resp_500 = "HTTP/1.1 " +:+ status +:+ CRLF +:+ CRLF) as H500
    by (exists "500 Internal Server Error"; split; [in_statuses|done]).
  destruct (headers !! "Content-Length") as [v|];
    [|intros [= <- <- <-]; split; [by left|by right]].
  destruct (strconv.Atoi v) as [n|];
    [|intros [= <- <- <-]; split; [by left|by right]].
  destruct (n <? 0)%Z; [intros [= <- <- <-]; split; [by left|by right]|].
  destruct (runtime.makeslice n) as [size|]; [|done].
  destruct (io.ReadFull reader size) as [[body|e] r].
  - destruct (refused fs OpCreate filePath);
      [intros [= <- <- <-]; split; [by left|by right]|].
    change (refused (os.put fs filePath "") OpWrite filePath)
      with (refused fs OpWrite filePath).
    destruct (refused fs OpWrite filePath); intros [= <- <- <-].
    + split; [right; split; [done|by eexists]|by right].
    + rewrite put_put. split; [right; split; [done|by eexists]|].
      right. exists "201 Created". split; [in_statuses|done].
  - intros [= <- <- <-]. split; [by left|].
    destruct e; [by right|by left|by right|by right].
Qed.

Lemma store_grows_refl (s : Server) (fs : FS) : store_grows s fs fs.
Proof. split; [done|]. intros path. split; done. Qed.

Lemma store_grows_trans (s : Server) (fs1 fs2 fs3 : FS) :
  store_grows s fs1 fs2 → store_grows s fs2 fs3 → store_grows s fs1 fs3.
Proof.
  intros [Hr12 H12] [Hr23 H23]. split; [congruence|]. intros path.
  destruct (H12 path) as [Hs12 Hc12], (H23 path) as [Hs23 Hc23]. split; [auto|].
  intros Hne. destruct (decide (files fs2 !! path = files fs1 !! path)) as [Heq|]; [|auto].
  apply Hc23. congruence.
Qed.

Lemma store_grows_put (s : Server) (fs : FS) (filename data : string) :
  directory s ≠ "" →
  store_grows s fs (os.put fs (filepath.Join [directory s; filename]) data).
Proof.
  intros Hdir. set (filePath := filepath.Join [directory s; filename]).
  split; [done|]. intros path. unfold os.put; cbn [files].
  destruct (decide (filePath = path)) as [<-|Hne].
  - rewrite lookup_insert_eq. split; [done|]. intros _. split; [done|by exists filename].
  - rewrite lookup_insert_ne by done. done.
Qed.

Section invariants.
Context `{Gzip}.



Lemma store_grows_dispatch (s : Server) (fs : FS) (method path : string)
    (headers : gmap string string) (reader : Reader) :
  store_grows s fs (store (dispatch s fs method path headers reader))
  ∧ others (store (dispatch s fs method path headers reader)) = others fs.
Proof.
  pose proof (store_grows_refl s fs) as Hrefl.
  unfold dispatch. case_bool_decide; [done|].
  destruct (strings.HasPrefix path "/echo/"); [by destruct (echo _ _)|].
  case_bool_decide; [done|].
  destruct (strings.HasPrefix path "/files/"); [|done].
  cbv zeta. case_bool_decide; [done|].
  case_bool_decide; [|done].
  destruct (handleFilePostRequest _ _ _ _ _) as [[[fs' resp] reader']|] eqn:Hpost;
    [|done].
  destruct (post_Done_cases _ _ _ _ _ _ _ _ Hpost) as [[->|(Hdir & data & ->)] _];
    [done|]. split; [by apply store_grows_put|done].
Qed.

(** What every pass keeps of the file store, and establishes of its
    response, holds of the store at the end of the connection and of every
    response written on it. *)
Lemma handleConnection_invariant (s : Server) (I : FS → Prop) (R : string → Prop) :
  (∀ fs method path headers reader,
     I fs →
     I (store (dispatch s fs method path headers reader))
     ∧ R (written (dispatch s fs method path headers reader))) →
  ∀ conn fs,
    I fs → I (handleConnection s fs conn).1 ∧ Forall R (handleConnection s fs conn).2.
Proof.
  intros Hstep conn. remember (net.size conn) as n eqn:Hn. revert conn Hn.
  induction n as [n IH] using lt_wf_ind. intros conn -> fs HI.
  rewrite handleConnection_eq.
  destruct (readRequestAndGetMethodPathAndHeaders conn) as [[[[m p] h] r]|e] eqn:Hreq;
    [|by split].
  cbv zeta. destruct (Hstep fs m p h r HI) as [HI' HR].
  destruct (_ || _); [split; [done|by constructor]|].
  pose proof (readRequest_shrink _ _ _ _ _ Hreq) as Hlt.
  pose proof (dispatch_shrink s fs m p h r) as Hle.
  destruct (IH (net.size (rd (reader_after (dispatch s fs m p h r)))) ltac:(lia)
              _ eq_refl _ HI') as [HI'' HR'].
  destruct (handleConnection s (store _) _) as [fs' resps]. simpl in *.
  split; [done|by constructor].
Qed.


(** X7: a connection never removes a file and never changes what the
    system refuses; a file is created or changed only at a path joined
    from the base directory and a name; on a server without a base
    directory the file store after the connection is the one before. *)
Theorem X7_store_only_grows (s : Server) (fs : FS) (conn : Conn) :
  store_grows s fs (handleConnection s fs conn).1
  ∧ (directory s = "" → (handleConnection s fs conn).1 = fs).
Proof.
  assert (store_grows s fs (handleConnection s fs conn).1
          ∧ others (handleConnection s fs conn).1 = others fs) as [Hg Ho].
  { apply (handleConnection_invariant s
             (λ fs', store_grows s fs fs' ∧ others fs' = others fs) (λ _, True));
      [|split; [apply store_grows_refl|done]].
    intros fs0 m p h r [Hfs0 Ho0]. split; [|done].
    destruct (store_grows_dispatch s fs0 m p h r) as [Hg Ho].
    split; [by eapply store_grows_trans|congruence]. }
  split; [done|]. intros Hdir.
  destruct Hg as [Hr Hf].
  destruct (handleConnection s fs conn).1 as [files' others' refused'].
  destruct fs as [files0 others0 refused0]. simpl in *. subst refused' others'. f_equal.
  apply map_eq. intros path.
  destruct (decide (files' !! path = files0 !! path)) as [|Hne]; [done|].
  by destruct (proj2 (Hf path) Hne) as [? _].
Qed.

End invariants.

(** ** Requests that never complete *)

Lemma ReadString_go_absent (fuel : nat) (acc : string) (b : Reader) (delim : ascii) :
  strings.IndexByte (contents b) delim = None →
  ∃ e, bufio.ReadString_go fuel acc b delim = Err e.
Proof.
  pose proof defaultBufSize_pos as Hpos.
  revert acc b. induction fuel as [|fuel IH]; intros acc [c buf]; [by eexists|].
  unfold contents; simpl. intros Hnone.
  destruct (IndexByte_app_l _ _ _ Hnone) as [-> Hc].
  destruct (Nat.leb_spec bufio.defaultBufSize (len buf)).
  - apply IH. unfold contents; simpl. by rewrite app_nil_l_str.
  - destruct (net.Read _ c) as [[chunk|] c'] eqn:Hread; [|by eexists].
    apply net_Read_Some in Hread as (_ & _ & Hp & _); [|lia].
    apply IH. unfold contents; simpl. by rewrite app_assoc_str, <- Hp.
Qed.

Lemma ReadString_absent (b : Reader) (delim : ascii) :
  strings.IndexByte (contents b) delim = None →
  ∃ e, bufio.ReadString b delim = Err e.
Proof. apply ReadString_go_absent. Qed.

Lemma read_headers_unterminated (lines : list string) (tail : string) :
  Forall header_line lines →
  strings.IndexByte tail LF = None →
  ∀ fuel r headers,
    contents r = header_block lines +:+ tail →
    ∃ e, read_headers fuel r headers = Err e.
Proof.
  intros Hlines Htail.
  induction Hlines as [|l lines [Hlf Hne] _ IH]; intros fuel [c buf] headers Hc;
    (destruct fuel as [|fuel]; [by eexists|]); simpl in Hc |- *.
  - rewrite app_nil_l_str in Hc.
    destruct (ReadString_absent {| rd := c; buffered := buf |} LF) as [e ->];
      [by rewrite Hc|]. by eexists.
  - destruct (ReadString_spec c buf LF (l +:+ String CR "")
                (header_block lines +:+ tail)) as (r' & -> & Hr').
    { by apply IndexByte_snoc_CR. }
    { unfold contents in Hc; simpl in Hc. by rewrite Hc, !app_assoc_str. }
    rewrite line_CRLF, bool_decide_eq_false_2 by (by apply header_line_not_blank).
    by apply IH.
Qed.

(** X8: a connection on which no line feed arrives before the stream
    ends or stalls past the deadline (an idle connection, or the beginning
    of a request line) gets no response, and the file store stays as it
    was. *)
Theorem X8_no_line_no_response `{Gzip} (s : Server) (fs : FS) (conn : Conn) :
  strings.IndexByte (net.pending conn) LF = None →
  handleConnection s fs conn = (fs, []).
Proof.
  intros Hnone.
  destruct (ReadString_absent (bufio.NewReader conn) LF) as [e He].
  { unfold contents, bufio.NewReader; simpl. by rewrite app_nil_l_str. }
  apply (handleConnection_Err s fs conn e).
  unfold readRequestAndGetMethodPathAndHeaders. by rewrite He.
Qed.

Lemma X8_witness :
  @handleConnection stored_gzip data_server empty_fs
    [Data "GET / HT"; Data "TP/1.1"; Deadline; Data (CRLF +:+ CRLF)]
  = (empty_fs, []).
Proof.
  apply (@X8_no_line_no_response stored_gzip data_server empty_fs
           [Data "GET / HT"; Data "TP/1.1"; Deadline; Data (CRLF +:+ CRLF)]).
  reflexivity.
Defined.

(** X9: a request whose header block is not closed by a blank line
    before the stream ends or stalls gets no response, whatever its
    request line and its headers are, and the file store stays as it
    was. *)
Theorem X9_unterminated_headers_no_response `{Gzip} (s : Server) (fs : FS)
    (conn : Conn) (reqLine : string) (lines : list string) (tail : string) :
  net.pending conn = reqLine +:+ CRLF +:+ header_block lines +:+ tail →
  strings.IndexByte reqLine LF = None →
  Forall header_line lines →
  strings.IndexByte tail LF = None →
  handleConnection s fs conn = (fs, []).
Proof.
  intros Hc Hlf Hlines Htail.
  assert (∃ e, readRequestAndGetMethodPathAndHeaders conn = Err e) as [e He];
    [|by apply (handleConnection_Err s fs conn e)].
  unfold readRequestAndGetMethodPathAndHeaders.
  destruct (ReadString_spec conn "" LF (reqLine +:+ String CR "")
              (header_block lines +:+ tail)) as (r & Hread & Hr).
  { by apply IndexByte_snoc_CR. }
  { by rewrite app_nil_l_str, Hc, !app_assoc_str. }
  unfold bufio.NewReader. rewrite Hread. cbv zeta.
  destruct (strings.Fields _) as [|m [|p [|v [|]]]]; try by eexists.
  destruct (strings.HasPrefix v "HTTP/"); simpl; [|by eexists].
  destruct (read_headers_unterminated lines tail Hlines Htail
              (len (buffered r) + net.size (rd r) + 1) r ∅ Hr) as [e ->].
  by eexists.
Qed.

Lemma X9_witness :
  @handleConnection stored_gzip data_server empty_fs
    [Data ("POST /files/a HTTP/1.1" +:+ CRLF +:+ "Content-Length: 0" +:+ CRLF);
     Data "Connection: close"]
  = (empty_fs, []).
Proof.
  apply (@X9_unterminated_headers_no_response stored_gzip data_server empty_fs _
           "POST /files/a HTTP/1.1" ["Content-Length: 0"] "Connection: close").
  - reflexivity.
  - reflexivity.
  - repeat constructor; done.
  - reflexivity.
Defined.

(** ** Header lines *)

Lemma Index_byte (s : string) (c : ascii) :
  strings.Index s (String c "") = strings.IndexByte s c.
Proof.
  induction s as [|a s IH]; [done|]. simpl. unfold strings.HasPrefix. simpl.
  destruct (ascii_dec c a) as [->|Hne].
  - rewrite Ascii.eqb_refl. by destruct s.
  - destruct (Ascii.eqb_spec a c) as [->|_]; [done|]. by rewrite IH.
Qed.

Lemma TrimRight_prefix (s cutset : string) :
  ∃ u, s = strings.TrimRight s cutset +:+ u.
Proof.
  induction s as [|a s [u IH]]; [by exists ""|]. simpl.
  destruct (strings.TrimRight s cutset) as [|b t] eqn:Ht.
  - destruct (strings.in_cutset cutset a); [by eexists|].
    exists u. rewrite app_nil_l_str in IH. by rewrite app_cons_str, app_nil_l_str, <- IH.
  - exists u. by rewrite app_cons_str, <- IH.
Qed.

Lemma TrimRight_keep (s t cutset : string) (c : ascii) :
  strings.in_cutset cutset c = false →
  strings.TrimRight (s +:+ String c t) cutset
    = s +:+ String c (strings.TrimRight t cutset).
Proof.
  intros Hc. induction s as [|a s IH].
  - rewrite !app_nil_l_str. simpl. rewrite Hc.
    by destruct (strings.TrimRight t cutset).
  - rewrite !app_cons_str. simpl. rewrite IH.
    by destruct s; rewrite ?app_nil_l_str, ?app_cons_str.
Qed.

(** X10: how a header line is taken apart.  A line without a colon
    gives no header.  Otherwise the name is what stands before the first
    colon and the value everything after it, later colons included, the
    line ending removed from the value and white space from both ends of
    each; a line that begins with a colon gives no header. *)
Theorem X10_header_field_first_colon (line : string) :
  (strings.IndexByte line ":" = None → header_field line = None)
  ∧ (∀ name value,
       line = name +:+ ":" +:+ value → strings.IndexByte name ":" = None →
       header_field line =
         if bool_decide (name = "") then None
         else Some (strings.TrimSpace name,
                    strings.TrimSpace (strings.TrimRight value CRLF))).
Proof.
  unfold header_field. split.
  - intros Hnone. destruct (TrimRight_prefix line CRLF) as [u Hu].
    rewrite Hu in Hnone. apply IndexByte_app_l in Hnone as [Hnone _].
    change ":"%string with (String ":" ""). by rewrite Index_byte, Hnone.
  - intros name value -> Hname.
    change (":" +:+ value) with (String ":" value).
    rewrite TrimRight_keep by done.
    change ":"%string with (String ":" "") at 1.
    rewrite Index_byte, IndexByte_app_found by done.
    case_bool_decide as Hempty; [by subst name|].
    destruct (Nat.ltb_spec 0 (len name)) as [_|Hlen];
      [|destruct name; [done|simpl in Hlen; lia]].
    rewrite take_app_len, drop_app_ge, Nat.add_comm by lia.
    by replace (1 + len name - len name) with 1 by lia.
Qed.

(** ** Requests and the segments that carry them *)

Lemma size_app (c more : Conn) : net.size (c ++ more) = net.size c + net.size more.
Proof. induction c as [|[seg|] c IH]; simpl; lia. Qed.

Lemma net_Read_app (cap : nat) (c c' more : Conn) (chunk : string) :
  net.Read cap c = (Some chunk, c') →
  net.Read cap (c ++ more) = (Some chunk, c' ++ more).
Proof.
  induction c as [|[seg|] c IH]; simpl; [done| |done].
  case_bool_decide; [done|]. destruct (_ <=? _); by intros [= <- <-].
Qed.

(** Reads skip the segments that carry no byte. *)
Lemma net_Read_skip (cap : nat) (c more : Conn) :
  no_deadline c → net.pending c = "" → net.Read cap (c ++ more) = net.Read cap more.
Proof.
  unfold no_deadline. induction c as [|[seg|] c IH]; simpl; intros Hc Hp; [done| |].
  - apply Forall_cons in Hc as [_ Hc].
    destruct seg; [|by rewrite app_cons_str in Hp].
    rewrite app_nil_l_str in Hp. rewrite bool_decide_eq_true_2 by done. by apply IH.
  - by apply Forall_cons in Hc as [? _].
Qed.

Lemma ReadString_go_app (more : Conn) (delim : ascii) (fuel fuel' : nat) (acc : string)
    (b b' : Reader) (line : string) :
  fuel ≤ fuel' →
  bufio.ReadString_go fuel acc b delim = Ok (line, b') →
  bufio.ReadString_go fuel' acc (extend more b) delim = Ok (line, extend more b').
Proof.
  revert fuel' acc b. induction fuel as [|fuel IH]; intros fuel' acc [c buf] Hfuel; [done|].
  destruct fuel' as [|fuel']; [lia|]. simpl.
  destruct (strings.IndexByte buf delim); [by intros [= <- <-]|].
  destruct (_ <=? _).
  - intros Hgo. apply (IH fuel') in Hgo; [done|lia].
  - destruct (net.Read _ c) as [[chunk|] c'] eqn:Hread; [|done].
    rewrite (net_Read_app _ _ _ more _ Hread).
    intros Hgo. apply (IH fuel') in Hgo; [done|lia].
Qed.

Lemma ReadString_app (more : Conn) (delim : ascii) (b b' : Reader) (line : string) :
  bufio.ReadString b delim = Ok (line, b') →
  bufio.ReadString (extend more b) delim = Ok (line, extend more b').
Proof.
  apply ReadString_go_app. simpl. rewrite size_app. lia.
Qed.

Lemma read_headers_app (more : Conn) (fuel fuel' : nat) (r r' : Reader)
    (headers headers' : gmap string string) :
  fuel ≤ fuel' →
  read_headers fuel r headers = Ok (headers', r') →
  read_headers fuel' (extend more r) headers = Ok (headers', extend more r').
Proof.
  revert fuel' r headers. induction fuel as [|fuel IH]; intros fuel' r headers Hfuel; [done|].
  destruct fuel' as [|fuel']; [lia|]. simpl.
  destruct (bufio.ReadString r LF) as [[line r1]|e] eqn:Hread; [|done].
  rewrite (ReadString_app more _ _ _ _ Hread).
  case_bool_decide; [by intros [= <- <-]|].
  intros Hgo. apply (IH fuel') in Hgo; [done|lia].
Qed.

Lemma readRequest_app (more : Conn) (conn : Conn) (method path : string)
    (headers : gmap string string) (reader : Reader) :
  readRequestAndGetMethodPathAndHeaders conn = Ok (method, path, headers, reader) →
  readRequestAndGetMethodPathAndHeaders (conn ++ more)
    = Ok (method, path, headers, extend more reader).
Proof.
  unfold readRequestAndGetMethodPathAndHeaders.
  destruct (bufio.ReadString (bufio.NewReader conn) LF) as [[reqLine r]|e] eqn:Hread;
    [|done].
  apply (ReadString_app more) in Hread.
  change (extend more (bufio.NewReader conn)) with (bufio.NewReader (conn ++ more)) in Hread.
  rewrite Hread. cbv zeta.
  destruct (strings.Fields _) as [|m [|p [|v [|]]]]; try done.
  destruct (strings.HasPrefix v "HTTP/"); simpl; [|done].
  destruct (read_headers _ r ∅) as [[h r']|e] eqn:Hh; [|done].
  apply (read_headers_app more _ (len (buffered r) + net.size (rd r ++ more) + 1)) in Hh;
    [|rewrite size_app; lia].
  rewrite Hh. by intros [= <- <- <- <-].
Qed.

Lemma ReadString_go_no_deadline (fuel : nat) (acc : string) (b b' : Reader)
    (delim : ascii) (line : string) :
  no_deadline (rd b) →
  bufio.ReadString_go fuel acc b delim = Ok (line, b') → no_deadline (rd b').
Proof.
  revert acc b. induction fuel as [|fuel IH]; intros acc [c buf] Hc; [done|]. simpl.
  destruct (strings.IndexByte buf delim); [by intros [= _ <-]|].
  destruct (_ <=? _); [by apply IH|].
  destruct (net.Read _ c) as [[chunk|] c'] eqn:Hread; [|done].
  apply IH. simpl. by eapply net_Read_no_deadline.
Qed.

Lemma read_headers_no_deadline (fuel : nat) (r r' : Reader)
    (headers headers' : gmap string string) :
  no_deadline (rd r) →
  read_headers fuel r headers = Ok (headers', r') → no_deadline (rd r').
Proof.
  revert r headers. induction fuel as [|fuel IH]; intros r headers Hr; [done|]. simpl.
  destruct (bufio.ReadString r LF) as [[line r1]|e] eqn:Hread; [|done].
  apply ReadString_go_no_deadline in Hread; [|done].
  case_bool_decide; [by intros [= _ <-]|]. by apply IH.
Qed.

Lemma readRequest_no_deadline (conn : Conn) (method path : string)
    (headers : gmap string string) (reader : Reader) :
  no_deadline conn →
  readRequestAndGetMethodPathAndHeaders conn = Ok (method, path, headers, reader) →
  no_deadline (rd reader).
Proof.
  intros Hc. unfold readRequestAndGetMethodPathAndHeaders.
  destruct (bufio.ReadString (bufio.NewReader conn) LF) as [[reqLine r]|e] eqn:Hread;
    [|done].
  apply ReadString_go_no_deadline in Hread; [|done]. cbv zeta.
  destruct (strings.Fields _) as [|m [|p [|v [|]]]]; try done.
  destruct (strings.HasPrefix v "HTTP/"); simpl; [|done].
  destruct (read_headers _ r ∅) as [[h r']|e] eqn:Hh; [|done].
  apply read_headers_no_deadline in Hh; [|done]. by intros [= _ _ _ <-].
Qed.

Lemma read_error_skip (c more : Conn) :
  no_deadline c → net.pending c = "" → read_error (c ++ more) = read_error more.
Proof.
  unfold read_error, no_deadline.
  induction c as [|[seg|] c IH]; simpl; intros Hc Hp; [done| |].
  - apply Forall_cons in Hc as [_ Hc].
    destruct seg; [|by rewrite app_cons_str in Hp].
    rewrite app_nil_l_str in Hp. rewrite bool_decide_eq_true_2 by done. by apply IH.
  - by apply Forall_cons in Hc as [? _].
Qed.

(** Segments without bytes ahead of a request change nothing. *)
Lemma readRequest_skip (c more : Conn) :
  no_deadline c → net.pending c = "" →
  readRequestAndGetMethodPathAndHeaders (c ++ more)
    = readRequestAndGetMethodPathAndHeaders more.
Proof.
  intros Hc Hp. unfold readRequestAndGetMethodPathAndHeaders.
  replace (bufio.ReadString (bufio.NewReader (c ++ more)) LF)
    with (bufio.ReadString (bufio.NewReader more) LF); [done|].
  rewrite <- (ReadString_fuel (2 * net.size (c ++ more) + 2) (bufio.NewReader more))
    by (simpl; rewrite size_app; lia).
  unfold bufio.ReadString. simpl net.size. rewrite !Nat.add_succ_r. simpl.
  by rewrite net_Read_skip, read_error_skip.
Qed.




Lemma contents_empty (r : Reader) :
  contents r = "" → buffered r = "" ∧ net.pending (rd r) = "".
Proof.
  unfold contents. intros Hc. apply (f_equal len) in Hc. rewrite len_app in Hc.
  simpl in Hc. split; apply len_zero; lia.
Qed.

Section sequence.
Context `{Gzip}.

Lemma handleConnection_skip (s : Server) (fs : FS) (c more : Conn) :
  no_deadline c → net.pending c = "" →
  handleConnection s fs (c ++ more) = handleConnection s fs more.
Proof.
  intros Hc Hp. by rewrite (handleConnection_eq s fs (c ++ more)),
    (handleConnection_eq s fs more), readRequest_skip.
Qed.

(** Only the file-write handler looks at the reader. *)
Lemma dispatch_not_post (s : Server) (fs : FS) (method path : string)
    (headers : gmap string string) (reader reader0 : Reader) :
  method ≠ "POST" →
  dispatch s fs method path headers reader =
    {| store := fs;
       written := written (dispatch s fs method path headers reader0);
       reader_after := reader;
       returned := returned (dispatch s fs method path headers reader0);
       panicked := false |}.
Proof.
  intros Hm. unfold dispatch. case_bool_decide; [done|].
  destruct (strings.HasPrefix path "/echo/"); [by destruct (echo _ _)|].
  case_bool_decide; [done|].
  destruct (strings.HasPrefix path "/files/"); [|done]. cbv zeta.
  case_bool_decide; [done|]. by rewrite bool_decide_eq_false_2.
Qed.

(** X11: requests on one connection are answered in turn.  When the
    segments [c1], none of them a failing read, carry exactly one request
    whose method is not POST and whose [Connection] header does not ask to
    close, the server writes the response to that request, leaves the file
    store as it was, and then serves the rest of the connection as it
    would serve it alone.  The compressor is taken not to report
    errors. *)
Theorem X11_requests_in_turn (s : Server) (fs : FS) (c1 c2 : Conn)
    (method path reqLine : string) (lines : list string) :
  gzip_never_fails →
  no_deadline c1 →
  net.pending c1 = request reqLine lines "" →
  request_line method path reqLine →
  Forall header_line lines →
  method ≠ "POST" →
  shouldClose (headers_of lines) = false →
  handleConnection s fs (c1 ++ c2) =
    (let '(fs', resps) := handleConnection s fs c2 in
     (fs', written (dispatch s fs method path (headers_of lines) (bufio.NewReader c2))
           :: resps)).
Proof.
  intros Hg Hc1 Hp (Hlf & ver & Hf & Hv) Hlines Hm Hclose.
  destruct (readRequest_wire c1 _ _ _ _ _ _ Hp Hlf Hlines Hf Hv) as (r1 & Hreq & Hr1).
  apply contents_empty in Hr1 as [_ Hr1].
  pose proof (readRequest_no_deadline _ _ _ _ _ Hc1 Hreq) as Hnd.
  apply (readRequest_app c2) in Hreq.
  rewrite (handleConnection_Ok s fs _ _ _ _ _ Hreq).
  rewrite (dispatch_not_post s fs method path _ (extend c2 r1) (bufio.NewReader c2) Hm).
  cbn [store written reader_after returned].
  rewrite dispatch_never_returns, Hclose by done. cbn [orb extend rd].
  by rewrite handleConnection_skip.
Qed.


End sequence.

Lemma X11_witness :
  @handleConnection stored_gzip data_server empty_fs
    ([Data ("GET /echo/a HTTP/1.1" +:+ CRLF); Data CRLF]
     ++ [Data (request "GET /user-agent HTTP/1.1" ["User-Agent: x"; "Connection: close"] "")])
  = (let '(fs', resps) :=
       @handleConnection stored_gzip data_server empty_fs
         [Data (request "GET /user-agent HTTP/1.1" ["User-Agent: x"; "Connection: close"] "")]
     in
     (fs', written (@dispatch stored_gzip data_server empty_fs "GET" "/echo/a" (headers_of [])
                      (bufio.NewReader
                         [Data (request "GET /user-agent HTTP/1.1"
                                  ["User-Agent: x"; "Connection: close"] "")]))
           :: resps)).
Proof.
  apply (@X11_requests_in_turn stored_gzip data_server empty_fs
           [Data ("GET /echo/a HTTP/1.1" +:+ CRLF); Data CRLF] _
           "GET" "/echo/a" "GET /echo/a HTTP/1.1" []).
  - intros str. by eexists _, _.
  - repeat constructor; done.
  - reflexivity.
  - split; [reflexivity|]. exists "HTTP/1.1". split; reflexivity.
  - constructor.
  - done.
  - reflexivity.
Defined.


(** ** What a segment holds after the request *)

Lemma ReadString_buffered (b : Reader) (delim : ascii) (i : nat) :
  strings.IndexByte (buffered b) delim = Some i →
  bufio.ReadString b delim
    = Ok (take_str (S i) (buffered b),
          {| rd := rd b; buffered := drop_str (S i) (buffered b) |}).
Proof.
  intros Hi. unfold bufio.ReadString. rewrite Nat.add_succ_r. simpl.
  by rewrite Hi, app_nil_l_str.
Qed.

Lemma ReadString_first_segment (seg : string) (c : Conn) (delim : ascii) (i : nat) :
  seg ≠ "" → len seg ≤ bufio.defaultBufSize →
  strings.IndexByte seg delim = Some i →
  bufio.ReadString (bufio.NewReader (Data seg :: c)) delim
    = Ok (take_str (S i) seg, {| rd := c; buffered := drop_str (S i) seg |}).
Proof.
  pose proof defaultBufSize_pos as Hpos.
  intros Hne Hlen Hi. unfold bufio.ReadString, bufio.NewReader.
  cbn [rd net.size]. rewrite Nat.add_succ_r, Nat.mul_succ_r, Nat.add_succ_r.
  cbn [bufio.ReadString_go rd buffered strings.IndexByte len].
  destruct (Nat.leb_spec bufio.defaultBufSize 0); [lia|].
  cbn [net.Read]. rewrite bool_decide_eq_false_2 by done.
  destruct (Nat.leb_spec (len seg) (bufio.defaultBufSize - 0)); [|lia].
  rewrite !app_nil_l_str, Hi. done.
Qed.

Lemma len_header_block (lines : list string) : length lines ≤ len (header_block lines).
Proof. induction lines as [|l lines IH]; simpl; [done|]. rewrite !len_app. simpl. lia. Qed.

Lemma read_headers_buffered (lines : list string) (rest : string) :
  Forall header_line lines →
  ∀ fuel r headers,
    length lines < fuel →
    buffered r = header_block lines +:+ CRLF +:+ rest →
    read_headers fuel r headers
      = Ok (foldl (λ h l, parse_header_line (l +:+ CRLF) h) headers lines,
            {| rd := rd r; buffered := rest |}).
Proof.
  induction 1 as [|l lines [Hlf Hne] _ IH]; intros fuel r headers Hfuel Hbuf;
    (destruct fuel as [|fuel]; [simpl in Hfuel; lia|]); simpl in Hbuf |- *.
  - rewrite app_nil_l_str in Hbuf.
    rewrite (ReadString_buffered r LF 1) by (by rewrite Hbuf).
    rewrite Hbuf. by rewrite bool_decide_eq_true_2.
  - assert (buffered r = (l +:+ CRLF) +:+ header_block lines +:+ CRLF +:+ rest) as Hbuf'
      by (by rewrite Hbuf, !app_assoc_str).
    rewrite (ReadString_buffered r LF (len l + 1)).
    + replace (S (len l + 1)) with (len (l +:+ CRLF)) by (rewrite len_app; simpl; lia).
      rewrite Hbuf', take_app_len, drop_app_len.
      rewrite bool_decide_eq_false_2 by (by apply header_line_not_blank).
      rewrite IH; [done|simpl in Hfuel; lia|done].
    + rewrite Hbuf, !app_assoc_str, IndexByte_app_None by done. done.
Qed.

(** A request that arrives in one segment, with whatever follows it
    there: the first read takes the segment whole, and what follows the
    request stays in the buffer of the reader. *)
Lemma readRequest_first_segment (c : Conn) (method path reqLine : string)
    (lines : list string) (extra : string) :
  request_line method path reqLine →
  Forall header_line lines →
  len (request reqLine lines extra) ≤ bufio.defaultBufSize →
  readRequestAndGetMethodPathAndHeaders (Data (request reqLine lines extra) :: c)
    = Ok (method, path, headers_of lines, {| rd := c; buffered := extra |}).
Proof.
  intros (Hlf & ver & Hf & Hv) Hlines Hlen.
  unfold readRequestAndGetMethodPathAndHeaders.
  assert (request reqLine lines extra
            = (reqLine +:+ CRLF) +:+ header_block lines +:+ CRLF +:+ extra) as Hseg
    by (unfold request; by rewrite !app_assoc_str).
  rewrite (ReadString_first_segment _ c LF (len reqLine + 1)); [|..|done|].
  - replace (S (len reqLine + 1)) with (len (reqLine +:+ CRLF))
      by (rewrite len_app; simpl; lia).
    rewrite Hseg, take_app_len, drop_app_len, TrimRight_CRLF, Hf, Hv.
    cbn [negb buffered rd].
    rewrite (read_headers_buffered lines extra); [done|done| |done].
    cbn [buffered]. pose proof (len_header_block lines). rewrite len_app. lia.
  - intros Hempty. apply (f_equal len) in Hempty. rewrite Hseg, !len_app in Hempty.
    simpl in Hempty. lia.
  - unfold request. rewrite IndexByte_app_None by done. done.
Qed.

(** X13: what shares a segment with a request is lost.  When a request
    whose method is not POST arrives in one segment of at most 4096 bytes,
    the bytes that follow the request in that segment (a body, or the
    beginning of a next request) are never looked at: the server behaves
    on the connection as if the segment had ended with the request. *)
Theorem X13_rest_of_segment_dropped `{Gzip} (s : Server) (fs : FS) (c : Conn)
    (method path reqLine : string) (lines : list string) (extra : string) :
  request_line method path reqLine →
  Forall header_line lines →
  method ≠ "POST" →
  len (request reqLine lines extra) ≤ 4096 →
  handleConnection s fs (Data (request reqLine lines extra) :: c)
    = handleConnection s fs (Data (request reqLine lines "") :: c).
Proof.
  intros Hreq Hlines Hm Hlen.
  assert (len (request reqLine lines "") ≤ 4096) as Hlen'.
  { unfold request in Hlen |- *. rewrite !len_app in Hlen. rewrite !len_app.
    change (len "") with 0. lia. }
  rewrite (handleConnection_Ok s fs _ _ _ _ _
             (readRequest_first_segment c _ _ _ _ extra Hreq Hlines Hlen)).
  rewrite (handleConnection_Ok s fs _ _ _ _ _
             (readRequest_first_segment c _ _ _ _ "" Hreq Hlines Hlen')).
  rewrite (dispatch_not_post s fs method path _ {| rd := c; buffered := extra |}
             {| rd := c; buffered := "" |} Hm).
  pose proof (dispatch_not_post s fs method path (headers_of lines)
                {| rd := c; buffered := "" |} {| rd := c; buffered := "" |} Hm) as Hd.
  destruct (dispatch s fs method path (headers_of lines) {| rd := c; buffered := "" |})
    as [st w ra ret].
  cbn [store written reader_after returned] in Hd |- *.
  by injection Hd as -> ->.
Qed.

Lemma X13_witness :
  @handleConnection stored_gzip data_server empty_fs
    [Data (request "GET /echo/a HTTP/1.1" [] (request "GET /echo/b HTTP/1.1" [] ""))]
  = @handleConnection stored_gzip data_server empty_fs
      [Data (request "GET /echo/a HTTP/1.1" [] "")].
Proof.
  apply (@X13_rest_of_segment_dropped stored_gzip data_server empty_fs []
           "GET" "/echo/a" "GET /echo/a HTTP/1.1" [] (request "GET /echo/b HTTP/1.1" [] "")).
  - split; [reflexivity|]. exists "HTTP/1.1". split; reflexivity.
  - constructor.
  - done.
  - vm_compute. lia.
Defined.

(** ** The compressor reports an error *)

(** X14: when the compressor reports an error, on the write or on the
    close, for an [/echo/] request that accepts gzip, the server answers
    500 and closes the connection at once, whatever the [Connection]
    header says: nothing that follows on the connection is answered, and
    the file store stays as it was. *)
Theorem X14_compressor_error_closes `{Gzip} (s : Server) (fs : FS) (conn : Conn)
    (method str : string) (headers : gmap string string) (reader : Reader) :
  readRequestAndGetMethodPathAndHeaders conn
    = Ok (method, "/echo/" +:+ str, headers, reader) →
  strings.Contains (header headers "Accept-Encoding") "gzip" = true →
  (gzip_Write str = None ∨ ∃ w, gzip_Write str = Some w ∧ gzip_Close w = None) →
  handleConnection s fs conn = (fs, ["HTTP/1.1 500 Internal Server Error" +:+ CRLF +:+ CRLF]).
Proof.
  intros Hreq Hgzip Hfail.
  rewrite (handleConnection_Ok s fs conn _ _ _ _ Hreq), dispatch_echo.
  unfold echo. rewrite Hgzip.
  destruct Hfail as [->|(w & -> & ->)]; done.
Qed.

Lemma X14_witness :
  @handleConnection failing_gzip data_server empty_fs
    [Data (request "GET /echo/abc HTTP/1.1" ["Accept-Encoding: gzip"] "");
     Data (request "GET / HTTP/1.1" [] "")]
  = (empty_fs, ["HTTP/1.1 500 Internal Server Error" +:+ CRLF +:+ CRLF]).
Proof.
  apply (@X14_compressor_error_closes failing_gzip data_server empty_fs _ "GET" "abc"
           {["Accept-Encoding" := "gzip"]}
           {| rd := [Data (request "GET / HTTP/1.1" [] "")]; buffered := "" |}).
  - vm_compute. reflexivity.
  - reflexivity.
  - right. by exists "abc".
Defined.

(** ** What has arrived when a request is accepted *)

Lemma ReadString_go_inv (fuel : nat) (acc : string) (b b' : Reader) (delim : ascii)
    (line : string) :
  bufio.ReadString_go fuel acc b delim = Ok (line, b') →
  ∃ l, line = acc +:+ l +:+ String delim ""
       ∧ strings.IndexByte l delim = None
       ∧ contents b = l +:+ String delim (contents b').
Proof.
  pose proof defaultBufSize_pos as Hpos.
  revert acc b. induction fuel as [|fuel IH]; intros acc [c buf]; [done|]. simpl.
  destruct (strings.IndexByte buf delim) as [i|] eqn:Hi.
  - intros [= <- <-]. destruct (IndexByte_Some _ _ _ Hi) as [Hnone Hbuf].
    destruct (IndexByte_take_S _ _ _ Hi) as [Htake _].
    exists (take_str i buf). split_and!; [by rewrite Htake|done|].
    unfold contents; simpl. by rewrite Hbuf at 1; rewrite app_assoc_str, app_cons_str.
  - destruct (Nat.leb_spec bufio.defaultBufSize (len buf)).
    + intros Hgo. apply IH in Hgo as (l & -> & Hl & Hc).
      unfold contents in Hc |- *; simpl in Hc |- *. rewrite app_nil_l_str in Hc.
      exists (buf +:+ l). split_and!.
      * by rewrite !app_assoc_str.
      * by rewrite IndexByte_app_None, Hl.
      * by rewrite Hc, !app_assoc_str.
    + destruct (net.Read _ c) as [[chunk|] c'] eqn:Hread; [|done].
      apply net_Read_Some in Hread as (_ & _ & Hp & _); [|lia].
      intros Hgo. apply IH in Hgo as (l & -> & Hl & Hc).
      unfold contents in Hc |- *; simpl in Hc |- *.
      exists l. split_and!; [done|done|]. by rewrite Hp, <- app_assoc_str.
Qed.

Lemma read_headers_inv (fuel : nat) (r r' : Reader) (headers headers' : gmap string string) :
  read_headers fuel r headers = Ok (headers', r') →
  ∃ block, contents r = block +:+ CRLF +:+ contents r'
           ∧ (block = "" ∨ ∃ b, block = b +:+ String LF "").
Proof.
  revert r headers. induction fuel as [|fuel IH]; intros r headers; [done|]. simpl.
  destruct (bufio.ReadString r LF) as [[line r1]|e] eqn:Hread; [|done].
  apply ReadString_go_inv in Hread as (l & -> & Hl & Hc). rewrite app_nil_l_str.
  case_bool_decide as Hblank.
  - intros [= <- <-]. exists "". split; [|by left].
    rewrite Hc, app_nil_l_str.
    apply (f_equal len) in Hblank as Hlen. rewrite len_app in Hlen. simpl in Hlen.
    destruct l as [|a [|? ?]]; [done| |simpl in Hlen; lia].
    rewrite app_cons_str, app_nil_l_str in Hblank. by injection Hblank as ->.
  - intros Hgo. apply IH in Hgo as (block & Hb & Hend).
    exists (l +:+ String LF block). split.
    + rewrite Hc, Hb, !app_assoc_str. by rewrite app_cons_str.
    + right. destruct Hend as [->|[b ->]].
      * by exists l.
      * exists (l +:+ String LF b). by rewrite app_assoc_str, app_cons_str.
Qed.

(** X15: the server answers only a request that has arrived whole.
    When it writes a response on a connection, the bytes it could read
    began with a line ended by a line feed, of three fields, the third
    beginning with [HTTP/], followed by a possibly empty run of lines
    ended by line feeds and then by a blank line that is exactly CR LF. *)
Theorem X15_response_needs_whole_request `{Gzip} (s : Server) (fs fs' : FS) (conn : Conn)
    (resp : string) (resps : list string) :
  handleConnection s fs conn = (fs', resp :: resps) →
  ∃ method path version reqLine block rest,
    net.pending conn = reqLine +:+ String LF (block +:+ CRLF +:+ rest)
    ∧ strings.IndexByte reqLine LF = None
    ∧ (block = "" ∨ ∃ b, block = b +:+ String LF "")
    ∧ strings.Fields (strings.TrimRight (reqLine +:+ String LF "") CRLF)
        = [method; path; version]
    ∧ strings.HasPrefix version "HTTP/" = true.
Proof.
  rewrite handleConnection_eq. unfold readRequestAndGetMethodPathAndHeaders.
  destruct (bufio.ReadString (bufio.NewReader conn) LF) as [[line r]|e] eqn:Hread;
    [|done].
  apply ReadString_go_inv in Hread as (reqLine & -> & Hlf & Hc).
  rewrite app_nil_l_str. cbv zeta.
  destruct (strings.Fields _) as [|m [|p [|v [|]]]] eqn:Hf; try done.
  destruct (strings.HasPrefix v "HTTP/") eqn:Hv; simpl; [|done].
  destruct (read_headers _ r ∅) as [[h r']|e] eqn:Hh; [|done].
  apply read_headers_inv in Hh as (block & Hb & Hend). intros _.
  exists m, p, v, reqLine, block, (contents r'). split_and!; try done.
  unfold contents at 1, bufio.NewReader in Hc; simpl in Hc. rewrite app_nil_l_str in Hc.
  by rewrite Hc, Hb.
Qed.

Lemma X15_witness :
  ∃ method path version reqLine block rest,
    net.pending [Data "GET / HTTP/1.1"; Data (String LF "Host: a"); Data (CRLF +:+ CRLF)]
      = reqLine +:+ String LF (block +:+ CRLF +:+ rest)
    ∧ strings.IndexByte reqLine LF = None
    ∧ (block = "" ∨ ∃ b, block = b +:+ String LF "")
    ∧ strings.Fields (strings.TrimRight (reqLine +:+ String LF "") CRLF)
        = [method; path; version]
    ∧ strings.HasPrefix version "HTTP/" = true.
Proof.
  apply (@X15_response_needs_whole_request stored_gzip data_server empty_fs empty_fs
           [Data "GET / HTTP/1.1"; Data (String LF "Host: a"); Data (CRLF +:+ CRLF)]
           resp_root []).
  vm_compute. reflexivity.
Defined.

(** ** A length that cannot be allocated *)

(** X16: on a server with a base directory, a POST to [/files/f] that
    declares a [Content-Length] beyond what the runtime allocates (more
    than 2^48) makes the file-write handler panic where it makes the
    buffer for the body, whatever the body and the [Connection] header
    are: no byte of the body is read, nothing reaches the connection, the
    file store is as it was, and nothing more is served on the
    connection. *)
Theorem X16_huge_length_panics `{Gzip} (s : Server) (fs : FS) (conn : Conn)
    (f : string) (headers : gmap string string) (reader : Reader) (v : string) (n : Z) :
  directory s ≠ "" →
  readRequestAndGetMethodPathAndHeaders conn
    = Ok ("POST", "/files/" +:+ f, headers, reader) →
  headers !! "Content-Length" = Some v → strconv.Atoi v = Some n →
  (runtime.maxAlloc < n)%Z →
  handleFilePostRequest s fs f headers reader = Panic
  ∧ panicked (dispatch s fs "POST" ("/files/" +:+ f) headers reader) = true
  ∧ handleConnection s fs conn = (fs, [""]).
Proof.
  intros Hdir Hreq Hv Hn Hbig.
  pose proof (handleFilePostRequest_panic s fs f headers reader v n Hdir Hv Hn Hbig)
    as Hpanic.
  split_and!; [done|by rewrite dispatch_files_post, Hpanic|].
  rewrite (handleConnection_Ok s fs conn _ _ _ _ Hreq), dispatch_files_post, Hpanic.
  cbn [store written reader_after returned panicked rd bufio.NewReader].
  destruct (shouldClose headers); [done|].
  by rewrite (handleConnection_Err s fs [] io_error).
Qed.

Lemma X16_witness :
  let headers : gmap string string := {["Content-Length" := "281474976710657"]} in
  let reader := {| rd := [Data (request "GET / HTTP/1.1" [] "")]; buffered := "hello" |} in
  handleFilePostRequest data_server empty_fs "notes" headers reader = Panic
  ∧ panicked (@dispatch stored_gzip data_server empty_fs "POST" ("/files/" +:+ "notes")
                headers reader) = true
  ∧ @handleConnection stored_gzip data_server empty_fs
      [Data (request "POST /files/notes HTTP/1.1" ["Content-Length: 281474976710657"]
               "hello");
       Data (request "GET / HTTP/1.1" [] "")]
    = (empty_fs, [""]).
Proof.
  intros headers reader.
  apply (@X16_huge_length_panics stored_gzip data_server empty_fs _ "notes" headers reader
           "281474976710657" 281474976710657%Z).
  - done.
  - vm_compute. reflexivity.
  - reflexivity.
  - reflexivity.
  - reflexivity.
Defined.
